(** * Convo: the room/session manager of [backend/server.js]

    A shallow embedding of the server side of the Convo chat application:
    the in-memory room table, the message validator, the socket handlers
    ([join_room], [send_message], [generate_summary], [disconnecting]), the
    summarization gateway ([generateSummary]) and the inactivity reaper
    ([expireInactiveRooms]).

    Modelling conventions.
    - A JavaScript string whose content the server inspects (a chat message,
      the text returned by the summarization model) is the list of its
      UTF-16 code units, so that [length] is the [.length] of the source.
      Room codes, socket ids, user names and the fixed error texts are
      opaque to the server and are kept as [string].
    - Room objects live in a heap; the table [rooms] maps a room code to
      the address of its object.  The [generate_summary] handler keeps its
      [room] reference across the [await], so the object it reads after
      the model has answered may no longer be in the table.
    - Every call of [Date.now()] is an explicit argument of the handler.
    - A handler returns the new server state together with the effects it
      performed, in order (socket emissions, broadcasts, the outbound call
      to the model, the scheduled clean-up).
    - The fields [roomCode] and [username] of an event payload are taken
      to be strings; the field [message] may be any value.
    - The room table is looked up at keys that are not inherited property
      names of [Object.prototype]; codes produced by [generateRoomCode] are
      upper-case and never collide with those.
    - [JSON.parse] and [String.prototype.trim] are built-ins of the
      runtime; they are modelled after the ECMAScript definition of the
      JSON grammar and of white space.
    - Diagnostic [console.log]/[console.error] lines are left out, except
      the reaper's count line. *)

From Stdlib Require Import ZArith NArith Lia Ascii String.
From stdpp Require Import base option list strings gmap fin_maps.

Local Open Scope Z_scope.
#[local] Set Warnings "-register-all".

(* ====================================================================== *)
(** ** JavaScript strings as UTF-16 code units *)
(* ====================================================================== *)

Module JsString.

(** A string as the sequence of its UTF-16 code units. *)
Definition jstring : Type := list N.

(** The code units of an ASCII literal; used to write the fixed texts of
    the source (["```json"], ["summary"], ...) and the examples. *)
Fixpoint lit (s : string) : jstring :=
  match s with
  | EmptyString => []
  | String a s' => N_of_ascii a :: lit s'
  end.

(** [s.length]. *)
Definition jlength (s : jstring) : Z := Z.of_nat (length s).

(** WhiteSpace and LineTerminator of ECMAScript: what [trim] strips and
    what [\s] matches.  TAB, LF, VT, FF, CR, SP, NBSP, U+1680,
    U+2000..U+200A, LS, PS, U+202F, U+205F, U+3000, BOM. *)
Definition is_js_space (c : N) : bool :=
  ((9 <=? c) && (c <=? 13) || (c =? 32) || (c =? 160) || (c =? 5760)
   || (8192 <=? c) && (c <=? 8202) || (c =? 8232) || (c =? 8233)
   || (c =? 8239) || (c =? 8287) || (c =? 12288) || (c =? 65279))%N.

(** [s.replace(/^\s*/, '')]: drop the leading white space. *)
Fixpoint trim_start (s : jstring) : jstring :=
  match s with
  | [] => []
  | c :: s' => if is_js_space c then trim_start s' else s
  end.

(** Drop the trailing white space. *)
Definition trim_end (s : jstring) : jstring := rev (trim_start (rev s)).

(** [s.trim()]. *)
Definition trim (s : jstring) : jstring := trim_end (trim_start s).

(** [s.startsWith(p)], returning the rest of [s] after [p]. *)
Fixpoint strip_prefix (p s : jstring) : option jstring :=
  match p, s with
  | [], _ => Some s
  | _ :: _, [] => None
  | a :: p', b :: s' => if (a =? b)%N then strip_prefix p' s' else None
  end.

Definition starts_with (p s : jstring) : bool :=
  match strip_prefix p s with Some _ => true | None => false end.

Definition jstring_eqb (a b : jstring) : bool := bool_decide (a = b).

End JsString.

Import JsString.

(* ====================================================================== *)
(** ** JSON values and [JSON.parse] *)
(* ====================================================================== *)

Module Json.

(** The values [JSON.parse] can return.  A number is kept as the decimal
    [m * 10^e] its literal denotes; an object keeps its members in source
    order, duplicates included (the last one wins on lookup). *)
Inductive json : Type :=
| JNull
| JBool (b : bool)
| JNumber (m e : Z)
| JString (s : jstring)
| JArray (xs : list json)
| JObject (members : list (jstring * json)).

(** JSON white space: space, TAB, LF, CR. *)
Definition is_json_ws (c : N) : bool :=
  ((c =? 32) || (c =? 9) || (c =? 10) || (c =? 13))%N.

Fixpoint skip_ws (s : jstring) : jstring :=
  match s with
  | [] => []
  | c :: s' => if is_json_ws c then skip_ws s' else s
  end.

Definition is_digit (c : N) : bool := ((48 <=? c) && (c <=? 57))%N.

Definition hex_digit (c : N) : option N :=
  if is_digit c then Some (c - 48)%N
  else if ((97 <=? c) && (c <=? 102))%N then Some (c - 87)%N
  else if ((65 <=? c) && (c <=? 70))%N then Some (c - 55)%N
  else None.

(** The characters of a string literal, after its opening quote; returns
    the decoded string and what follows the closing quote. *)
Fixpoint parse_chars (s : jstring) (acc : jstring) : option (jstring * jstring) :=
  match s with
  | [] => None
  | c :: rest =>
    if (c =? 34)%N then Some (rev acc, rest)
    else if (c =? 92)%N then
      match rest with
      | [] => None
      | e :: rest1 =>
        if (e =? 34)%N then parse_chars rest1 (34%N :: acc)
        else if (e =? 92)%N then parse_chars rest1 (92%N :: acc)
        else if (e =? 47)%N then parse_chars rest1 (47%N :: acc)
        else if (e =? 98)%N then parse_chars rest1 (8%N :: acc)
        else if (e =? 102)%N then parse_chars rest1 (12%N :: acc)
        else if (e =? 110)%N then parse_chars rest1 (10%N :: acc)
        else if (e =? 114)%N then parse_chars rest1 (13%N :: acc)
        else if (e =? 116)%N then parse_chars rest1 (9%N :: acc)
        else if (e =? 117)%N then
          match rest1 with
          | h1 :: h2 :: h3 :: h4 :: rest2 =>
            match hex_digit h1, hex_digit h2, hex_digit h3, hex_digit h4 with
            | Some d1, Some d2, Some d3, Some d4 =>
              parse_chars rest2 ((((d1 * 16 + d2) * 16 + d3) * 16 + d4)%N :: acc)
            | _, _, _, _ => None
            end
          | _ => None
          end
        else None
      end
    else if (c <? 32)%N then None
    else parse_chars rest (c :: acc)
  end.

(** The longest run of decimal digits at the head of [s]. *)
Fixpoint take_digits (s : jstring) : list N * jstring :=
  match s with
  | [] => ([], [])
  | c :: s' =>
    if is_digit c then let '(ds, r) := take_digits s' in (c :: ds, r)
    else ([], s)
  end.

Definition digits_value (ds : list N) : Z :=
  fold_left (fun acc c => acc * 10 + Z.of_N (c - 48)) ds 0.

(** The integer part of a number literal: a single 0, or a run of digits
    that starts with a non-zero digit. *)
Definition number_int (s : jstring) : option (list N * jstring) :=
  match s with
  | [] => None
  | c :: r =>
    if (c =? 48)%N then Some ([c], r)
    else if is_digit c then Some (take_digits s)
    else None
  end.

(** The optional fraction: a dot and at least one digit. *)
Definition number_frac (s : jstring) : option (list N * jstring) :=
  match s with
  | c :: r =>
    if (c =? 46)%N then
      match take_digits r with
      | ([], _) => None
      | (fds, r') => Some (fds, r')
      end
    else Some ([], s)
  | [] => Some ([], s)
  end.

(** The optional exponent: e or E, an optional sign, at least one digit. *)
Definition number_exp (s : jstring) : option (Z * jstring) :=
  match s with
  | c :: r =>
    if ((c =? 101) || (c =? 69))%N then
      let '(eneg, r1) :=
        match r with
        | d :: r' =>
          if (d =? 45)%N then (true, r')
          else if (d =? 43)%N then (false, r')
          else (false, r)
        | [] => (false, r)
        end in
      match take_digits r1 with
      | ([], _) => None
      | (eds, r2) =>
        Some ((if eneg then - digits_value eds else digits_value eds), r2)
      end
    else Some (0, s)
  | [] => Some (0, s)
  end.

(** What follows the optional minus sign of a number literal: the integer
    part, the fraction, the exponent.  The value is [m * 10^e] with [m] the
    digits of the integer part and of the fraction read as one integer. *)
Definition parse_unsigned (neg : bool) (s : jstring) : option (json * jstring) :=
  match number_int s with
  | None => None
  | Some (ids, s2) =>
    match number_frac s2 with
    | None => None
    | Some (fds, s3) =>
      match number_exp s3 with
      | None => None
      | Some (ex, s4) =>
        let mag := digits_value (ids ++ fds) in
        Some (JNumber (if neg then - mag else mag) (ex - Z.of_nat (length fds)), s4)
      end
    end
  end.

(** A number literal. *)
Definition parse_number (s : jstring) : option (json * jstring) :=
  match s with
  | c :: r => if (c =? 45)%N then parse_unsigned true r else parse_unsigned false s
  | [] => parse_unsigned false s
  end.

(** The elements of a non-empty array, after its opening bracket. *)
Fixpoint parse_elements (pv : jstring -> option (json * jstring))
         (fuel : nat) (s : jstring) (acc : list json) : option (json * jstring) :=
  match fuel with
  | O => None
  | S fuel' =>
    match pv s with
    | None => None
    | Some (v, r) =>
      match skip_ws r with
      | c :: r' =>
        if (c =? 44)%N then parse_elements pv fuel' r' (v :: acc)
        else if (c =? 93)%N then Some (JArray (rev (v :: acc)), r')
        else None
      | [] => None
      end
    end
  end.

(** The members of a non-empty object, after its opening brace. *)
Fixpoint parse_members (pv : jstring -> option (json * jstring))
         (fuel : nat) (s : jstring) (acc : list (jstring * json))
  : option (json * jstring) :=
  match fuel with
  | O => None
  | S fuel' =>
    match skip_ws s with
    | q :: r =>
      if (q =? 34)%N then
        match parse_chars r [] with
        | None => None
        | Some (k, r1) =>
          match skip_ws r1 with
          | c :: r2 =>
            if (c =? 58)%N then
              match pv r2 with
              | None => None
              | Some (v, r3) =>
                match skip_ws r3 with
                | d :: r4 =>
                  if (d =? 44)%N then parse_members pv fuel' r4 ((k, v) :: acc)
                  else if (d =? 125)%N then Some (JObject (rev ((k, v) :: acc)), r4)
                  else None
                | [] => None
                end
              end
            else None
          | [] => None
          end
        end
      else None
    | [] => None
    end
  end.

(** One JSON value, leading white space allowed; [fuel] bounds the
    nesting depth. *)
Fixpoint parse_value (fuel : nat) (s : jstring) : option (json * jstring) :=
  match fuel with
  | O => None
  | S fuel' =>
    match skip_ws s with
    | [] => None
    | c :: rest =>
      if (c =? 123)%N then
        match skip_ws rest with
        | d :: rest' =>
          if (d =? 125)%N then Some (JObject [], rest')
          else parse_members (parse_value fuel') (S (length rest)) rest []
        | [] => None
        end
      else if (c =? 91)%N then
        match skip_ws rest with
        | d :: rest' =>
          if (d =? 93)%N then Some (JArray [], rest')
          else parse_elements (parse_value fuel') (S (length rest)) rest []
        | [] => None
        end
      else if (c =? 34)%N then
        match parse_chars rest [] with
        | Some (str, r) => Some (JString str, r)
        | None => None
        end
      else if (c =? 116)%N then
        match strip_prefix (lit "true") (c :: rest) with
        | Some r => Some (JBool true, r)
        | None => None
        end
      else if (c =? 102)%N then
        match strip_prefix (lit "false") (c :: rest) with
        | Some r => Some (JBool false, r)
        | None => None
        end
      else if (c =? 110)%N then
        match strip_prefix (lit "null") (c :: rest) with
        | Some r => Some (JNull, r)
        | None => None
        end
      else parse_number (c :: rest)
    end
  end.

(** [JSON.parse(text)]: [None] when it throws a [SyntaxError].  A text
    of [n] code units nests at most [n] deep. *)
Definition JSON_parse (text : jstring) : option json :=
  match parse_value (S (length text)) text with
  | Some (v, r) => match skip_ws r with [] => Some v | _ :: _ => None end
  | None => None
  end.

(** Whether the double nearest to [m * 10^e] is non-zero: the decimal
    must exceed [2^-1075] in magnitude, half of the least subnormal. *)
Definition number_nonzero (m e : Z) : bool :=
  if m =? 0 then false
  else if 0 <=? e then true
  else 10 ^ (- e) <? Z.abs m * 2 ^ 1075.

(** ToBoolean on a parsed value. *)
Definition truthy (v : json) : bool :=
  match v with
  | JNull => false
  | JBool b => b
  | JNumber m e => number_nonzero m e
  | JString s => match s with [] => false | _ :: _ => true end
  | JArray _ => true
  | JObject _ => true
  end.

(** The value of the last member named [k], if any. *)
Fixpoint get_member (k : jstring) (members : list (jstring * json)) : option json :=
  match members with
  | [] => None
  | (k', v) :: rest =>
    match get_member k rest with
    | Some v' => Some v'
    | None => if jstring_eqb k k' then Some v else None
    end
  end.

End Json.

Import Json.

(* ====================================================================== *)
(** ** The server *)
(* ====================================================================== *)

Module Convo.

Local Open Scope string_scope.
Local Open Scope list_scope.
Local Open Scope Z_scope.

(** *** Safeguards configuration *)

Definition MAX_MESSAGES_PER_ROOM : Z := 1000.
Definition MAX_CHARACTERS_PER_MESSAGE : Z := 5000.
Definition ROOM_INACTIVITY_TIMEOUT : Z := 30 * 60 * 1000.
Definition ROOM_CLEANUP_INTERVAL : Z := 5 * 60 * 1000.

(** *** In-memory data structure *)

(** [{ id: socketId, username }] *)
Record User : Type := mkUser { user_id : string; user_username : string }.

(** [{ username, message, timestamp }] *)
Record Message : Type :=
  mkMessage { msg_username : string; msg_message : jstring; msg_timestamp : Z }.

(** [{ users, messages, lastActivity, createdAt }] *)
Record Room : Type :=
  mkRoom { users : list User; messages : list Message;
           lastActivity : Z; createdAt : Z }.

(** A [generate_summary] handler suspended at its [await]: the socket
    that asked, the room code, and the room object it holds. *)
Record Pending : Type :=
  mkPending { p_socket : string; p_roomCode : string; p_room : nat }.

(** The server: the room objects, the table [rooms] from code to object,
    the summary requests waiting for the model, and the room codes whose
    clean-up timer is running. *)
Record Server : Type :=
  mkServer { heap : gmap nat Room; rooms : gmap string nat;
             pending : list Pending; timers : list string }.

Definition empty_server : Server := mkServer ∅ ∅ [] [].

(** [rooms[roomCode]]: the address and the current content of the room.
    In a [well_formed] state the second lookup cannot fail. *)
Definition room_at (s : Server) (roomCode : string) : option (nat * Room) :=
  match rooms s !! roomCode with
  | None => None
  | Some l => match heap s !! l with
              | None => None
              | Some room => Some (l, room)
              end
  end.

(** Assignment to fields of the room object at [l]. *)
Definition set_room (l : nat) (room : Room) (s : Server) : Server :=
  mkServer (<[l := room]> (heap s)) (rooms s) (pending s) (timers s).

(** *** What a handler does to the outside *)

Record Summary : Type :=
  mkSummary { summary : json; keyPoints : list json; actionItems : list json }.

(** The socket.io events of the protocol, with their payloads. *)
Inductive event : Type :=
| error (message : string)
| user_joined (username : string)
| receive_message (username : string) (message : jstring)
| summary_generating (roomCode : string)
| summary_generated (roomCode : string) (result : Summary) (messageCount : Z)
| room_closed (roomCode : string)
| user_left (id : string).

Inductive effect : Type :=
| SocketEmit (socket : string) (e : event)     (* socket.emit(...) *)
| RoomEmit (roomCode : string) (e : event)     (* io.to(roomCode).emit(...) *)
| SocketJoin (socket roomCode : string)        (* socket.join(roomCode) *)
| GenerateContent (transcript : list Message)  (* model.generateContent(prompt) *)
| SetTimeout (roomCode : string) (delay : Z)   (* setTimeout(..., delay) *)
| ConsoleExpired (expiredCount : Z).           (* "Expired n inactive room(s)" *)

(** *** Helper functions *)

(** The [message] field of a [send_message] payload: a string, or some
    other JavaScript value. *)
Inductive payload : Type :=
| PString (s : jstring)
| POther.

(** [{ valid: true }] or [{ valid: false, error }]. *)
Inductive validation : Type :=
| Valid
| Invalid (error : string).

Definition validateMessage (message : payload) : validation :=
  match message with
  | POther => Invalid "Message must be a non-empty string"
  | PString m =>
    match m with
    | [] => Invalid "Message must be a non-empty string"
    | _ :: _ =>
      if jlength (trim m) =? 0 then Invalid "Message cannot be empty"
      else if MAX_CHARACTERS_PER_MESSAGE <? jlength m then
        Invalid "Message exceeds maximum length of 5000 characters"
      else Valid
    end
  end.

Definition hasReachedMessageLimit (roomCode : string) (s : Server) : bool :=
  match room_at s roomCode with
  | None => false
  | Some (_, room) => MAX_MESSAGES_PER_ROOM <=? Z.of_nat (length (messages room))
  end.

(** [cleanedText.replace(/\s*```$/, '')]: a closing fence at the very end
    goes, with the white space before it. *)
Definition strip_closing_fence (s : jstring) : jstring :=
  match strip_prefix (lit "```") (rev s) with
  | Some r => rev (trim_start r)
  | None => s
  end.

(** The clean-up of the model's text before [JSON.parse]. *)
Definition clean_reply (text : jstring) : jstring :=
  let cleanedText := trim text in
  match strip_prefix (lit "```json") cleanedText with
  | Some r => strip_closing_fence (trim_start r)
  | None =>
    match strip_prefix (lit "```") cleanedText with
    | Some r => strip_closing_fence (trim_start r)
    | None => cleanedText
    end
  end.

(** [summaryData.name] for the three names the gateway reads, none of
    which is defined on a prototype: [None] is the [TypeError] of a
    property read on [null], [Some None] is [undefined]. *)
Definition property (summaryData : json) (name : string) : option (option json) :=
  match summaryData with
  | JNull => None
  | JObject members => Some (get_member (lit name) members)
  | _ => Some None
  end.

(** "Validate and structure the response". *)
Definition structure_response (summaryData : json) : option Summary :=
  match property summaryData "summary",
        property summaryData "keyPoints",
        property summaryData "actionItems" with
  | Some sm, Some kp, Some ai =>
    Some (mkSummary
            (match sm with
             | Some v => if truthy v then v else JString (lit "No summary available")
             | None => JString (lit "No summary available")
             end)
            (match kp with Some (JArray xs) => xs | _ => [] end)
            (match ai with Some (JArray xs) => xs | _ => [] end))
  | _, _, _ => None
  end.

(** What the awaited call to the model yields: a rejection (or a
    response whose text cannot be read), or the text of the response. *)
Inductive model_outcome : Type :=
| ModelFailed
| ModelReplied (text : jstring).

(** [generateSummary] up to its [await]: the guard, then the prompt built
    from the room's messages is sent. *)
Definition generateSummary_call (roomCode : string) (s : Server)
  : list Message + string :=
  match room_at s roomCode with
  | None => inr "No messages found in room"
  | Some (_, room) =>
    match messages room with
    | [] => inr "No messages found in room"
    | _ :: _ => inl (messages room)
    end
  end.

(** [generateSummary] after its [await]: the [try] block on the outcome
    of the call; every exception becomes the same error. *)
Definition generateSummary_return (o : model_outcome) : Summary + string :=
  match o with
  | ModelFailed => inr "Failed to generate summary. Please try again."
  | ModelReplied text =>
    match JSON_parse (clean_reply text) with
    | None => inr "Failed to generate summary. Please try again."
    | Some summaryData =>
      match structure_response summaryData with
      | Some result => inl result
      | None => inr "Failed to generate summary. Please try again."
      end
    end
  end.

Definition cleanupRoom (roomCode : string) (s : Server) : Server :=
  match rooms s !! roomCode with
  | Some _ => mkServer (heap s) (delete roomCode (rooms s)) (pending s) (timers s)
  | None => s
  end.

(** The test of the reaper's loop on one entry of the table. *)
Definition is_expired (now : Z) (s : Server) (roomCode : string) : bool :=
  match room_at s roomCode with
  | Some (_, room) => ROOM_INACTIVITY_TIMEOUT <? now - lastActivity room
  | None => false
  end.

(** The array [expiredRooms] after the loop over [Object.entries(rooms)]. *)
Definition expiredRooms (now : Z) (s : Server) : list string :=
  filter (fun roomCode => is_expired now s roomCode = true)
         (fst <$> map_to_list (rooms s)).

(** Returns the new state and [expiredRooms.length]. *)
Definition expireInactiveRooms (now : Z) (s : Server) : Server * Z :=
  let expired := expiredRooms now s in
  (foldl (fun s' roomCode => cleanupRoom roomCode s') s expired,
   Z.of_nat (length expired)).

(** The [setInterval] callback. *)
Definition cleanup_interval (now : Z) (s : Server) : Server * list effect :=
  let '(s', expiredCount) := expireInactiveRooms now s in
  (s', if 0 <? expiredCount then [ConsoleExpired expiredCount] else []).

(** *** HTTP API endpoints *)

(** The [do ... while (rooms[roomCode])] loop over the codes that
    [generateRoomCode] returns, in order. *)
Fixpoint first_free_code (generated : list string) (s : Server) : option string :=
  match generated with
  | [] => None
  | roomCode :: more =>
    match rooms s !! roomCode with
    | Some _ => first_free_code more s
    | None => Some roomCode
    end
  end.

(** [POST /api/create-room]; [None] while the generator has not yet
    produced a free code. *)
Definition create_room (generated : list string) (now1 now2 : Z) (s : Server)
  : option (Server * string) :=
  match first_free_code generated s with
  | None => None
  | Some roomCode =>
    let l := fresh (dom (heap s)) in
    Some (mkServer (<[l := mkRoom [] [] now1 now2]> (heap s))
                   (<[roomCode := l]> (rooms s)) (pending s) (timers s),
          roomCode)
  end.

(** [GET /api/room-exists/:roomCode] *)
Definition room_exists (roomCode : string) (s : Server) : bool :=
  match rooms s !! roomCode with Some _ => true | None => false end.

(** *** Socket.io event handlers *)

Definition join_room (socket roomCode username : string) (now : Z) (s : Server)
  : Server * list effect :=
  match room_at s roomCode with
  | None => (s, [SocketEmit socket (error "Room does not exist")])
  | Some (l, room) =>
    (set_room l (mkRoom (users room ++ [mkUser socket username])
                        (messages room) now (createdAt room)) s,
     [SocketJoin socket roomCode; RoomEmit roomCode (user_joined username)])
  end.

(** [message.trim()], reached with a validated message only, and only a
    string is valid. *)
Definition trim_payload (message : payload) : jstring :=
  match message with
  | PString m => trim m
  | POther => []
  end.

(** [now1] is the clock read for the message's timestamp, [now2] the one
    read for [lastActivity]. *)
Definition send_message (socket roomCode username : string) (message : payload)
           (now1 now2 : Z) (s : Server) : Server * list effect :=
  match room_at s roomCode with
  | None => (s, [SocketEmit socket (error "Room does not exist")])
  | Some (l, room) =>
    match validateMessage message with
    | Invalid e => (s, [SocketEmit socket (error e)])
    | Valid =>
      if hasReachedMessageLimit roomCode s then
        (s, [SocketEmit socket
               (error "Room has reached maximum message limit of 1000")])
      else
        (set_room l (mkRoom (users room)
                            (messages room
                               ++ [mkMessage username (trim_payload message) now1])
                            now2 (createdAt room)) s,
         [RoomEmit roomCode (receive_message username (trim_payload message))])
    end
  end.

(** [generate_summary], from the event to the [await]. *)
Definition generate_summary (socket roomCode : string) (s : Server)
  : Server * list effect :=
  match room_at s roomCode with
  | None => (s, [SocketEmit socket (error "Room does not exist")])
  | Some (l, room) =>
    match messages room with
    | [] => (s, [SocketEmit socket (error "No messages to summarize")])
    | _ :: _ =>
      match generateSummary_call roomCode s with
      | inl transcript =>
        (mkServer (heap s) (rooms s)
                  (pending s ++ [mkPending socket roomCode l]) (timers s),
         [SocketEmit socket (summary_generating roomCode);
          GenerateContent transcript])
      | inr e =>
        (s, [SocketEmit socket (summary_generating roomCode);
             SocketEmit socket (error e)])
      end
    end
  end.

(** [room.messages.length] through the reference the handler kept. *)
Definition held_message_count (l : nat) (s : Server) : Z :=
  match heap s !! l with
  | Some room => Z.of_nat (length (messages room))
  | None => 0
  end.

(** [generate_summary], from the [await] on: the handler [p] resumes with
    the outcome of the call to the model. *)
Definition generate_summary_resume (p : Pending) (o : model_outcome) (s : Server)
  : Server * list effect :=
  match generateSummary_return o with
  | inl result =>
    (mkServer (heap s) (rooms s) (pending s) (timers s ++ [p_roomCode p]),
     [RoomEmit (p_roomCode p)
        (summary_generated (p_roomCode p) result (held_message_count (p_room p) s));
      SetTimeout (p_roomCode p) 2000])
  | inr e => (s, [SocketEmit (p_socket p) (error e)])
  end.

(** The callback given to [setTimeout]. *)
Definition cleanup_timeout (roomCode : string) (s : Server) : Server * list effect :=
  (cleanupRoom roomCode s, [RoomEmit roomCode (room_closed roomCode)]).

(** The body of the loop of [disconnecting], for one element of
    [socket.rooms]. *)
Definition leave_room (socket roomCode : string) (now : Z) (s : Server)
  : Server * list effect :=
  match room_at s roomCode with
  | None => (s, [])
  | Some (l, room) =>
    (set_room l (mkRoom (filter (fun u => user_id u ≠ socket) (users room))
                        (messages room) now (createdAt room)) s,
     [RoomEmit roomCode (user_left socket)])
  end.

(** [disconnecting]: [socket_rooms] is [socket.rooms] in iteration
    order, each with the clock read in its iteration. *)
Fixpoint disconnecting (socket : string) (socket_rooms : list (string * Z))
         (s : Server) : Server * list effect :=
  match socket_rooms with
  | [] => (s, [])
  | (roomCode, now) :: more =>
    let '(s1, out1) := leave_room socket roomCode now s in
    let '(s2, out2) := disconnecting socket more s1 in
    (s2, out1 ++ out2)
  end.

(** *** The event loop *)

(** What the event loop can run next. *)
Inductive input : Type :=
| CreateRoom (generated : list string) (now1 now2 : Z)
| JoinRoom (socket roomCode username : string) (now : Z)
| SendMessage (socket roomCode username : string) (message : payload) (now1 now2 : Z)
| GenerateSummary (socket roomCode : string)
| ModelAnswers (i : nat) (o : model_outcome)   (* the [i]-th pending request *)
| TimeoutFires (i : nat)                       (* the [i]-th running timer *)
| Disconnecting (socket : string) (socket_rooms : list (string * Z))
| CleanupInterval (now : Z).

Definition step (i : input) (s : Server) : Server * list effect :=
  match i with
  | CreateRoom generated now1 now2 =>
    match create_room generated now1 now2 s with
    | Some (s', _) => (s', [])
    | None => (s, [])
    end
  | JoinRoom socket roomCode username now => join_room socket roomCode username now s
  | SendMessage socket roomCode username message now1 now2 =>
    send_message socket roomCode username message now1 now2 s
  | GenerateSummary socket roomCode => generate_summary socket roomCode s
  | ModelAnswers i o =>
    match pending s !! i with
    | Some p =>
      generate_summary_resume p o
        (mkServer (heap s) (rooms s) (delete i (pending s)) (timers s))
    | None => (s, [])
    end
  | TimeoutFires i =>
    match timers s !! i with
    | Some roomCode =>
      cleanup_timeout roomCode
        (mkServer (heap s) (rooms s) (pending s) (delete i (timers s)))
    | None => (s, [])
    end
  | Disconnecting socket socket_rooms => disconnecting socket socket_rooms s
  | CleanupInterval now => cleanup_interval now s
  end.

(** A run of the event loop: the final state and everything done. *)
Fixpoint run (inputs : list input) (s : Server) : Server * list effect :=
  match inputs with
  | [] => (s, [])
  | i :: more =>
    let '(s1, out1) := step i s in
    let '(s2, out2) := run more s1 in
    (s2, out1 ++ out2)
  end.

(** The number of calls to the model among the effects. *)
Definition gateway_calls (out : list effect) : nat :=
  length (List.filter (fun e => match e with GenerateContent _ => true | _ => false end) out).

(** Every code of the table points to a room object: the state of the
    table between two handlers. *)
Definition well_formed (s : Server) : Prop :=
  ∀ roomCode l, rooms s !! roomCode = Some l → is_Some (heap s !! l).

End Convo.

Import Convo.

(* ====================================================================== *)
(** ** Sample runs *)
(* ====================================================================== *)

Module Scenario.

Local Open Scope string_scope.
Local Open Scope list_scope.
Local Open Scope Z_scope.

(** A room has just been created. *)
Definition lobby : Server :=
  fst (run [CreateRoom ["K3X9QZ"] 1000 1000] empty_server).

(** Alice and Bob have joined and exchanged two messages. *)
Definition chatting : Server :=
  fst (run [JoinRoom "sockA" "K3X9QZ" "Alice" 2000;
            JoinRoom "sockB" "K3X9QZ" "Bob" 3000;
            SendMessage "sockA" "K3X9QZ" "Alice" (PString (lit "hi")) 4000 4000;
            SendMessage "sockB" "K3X9QZ" "Bob" (PString (lit " hello ")) 5000 5001]
           lobby).

(** The same client has emitted [join_room] twice on one socket. *)
Definition joined_twice : Server :=
  fst (run [JoinRoom "sockA" "K3X9QZ" "Alice" 2000;
            JoinRoom "sockA" "K3X9QZ" "Alice" 2500;
            JoinRoom "sockB" "K3X9QZ" "Bob" 3000]
           lobby).

(** A thousand messages have been sent to the room. *)
Definition crowded : Server :=
  fst (run (repeat (SendMessage "sockA" "K3X9QZ" "Alice" (PString (lit "again")) 4000 4000)
                   1000)
           lobby).

(** Alice has asked for the summary; the model has not answered yet. *)
Definition summarizing : Server :=
  fst (run [GenerateSummary "sockA" "K3X9QZ"] chatting).

(** A string literal of JSON: the text between double quotes. *)
Definition quoted (s : string) : jstring := 34%N :: lit s ++ [34%N].

(** A reply of the model inside a Markdown fence, with key points only. *)
Definition fenced_reply : jstring :=
  lit "```json
{" ++ quoted "keyPoints" ++ lit ": [" ++ quoted "tea at five" ++ lit "]}
```".

(** Five thousand spaces, then a letter. *)
Definition padded : jstring := repeat 32%N 5000 ++ lit "a".

End Scenario.

(* ====================================================================== *)
(** ** What the stored data satisfies; batches of messages *)
(* ====================================================================== *)

Module Stored.

Local Open Scope string_scope.
Local Open Scope list_scope.
Local Open Scope Z_scope.

(** A stored message text: not empty, without white space at either end,
    within the length limit. *)
Definition message_ok (m : Message) : Prop :=
  msg_message m ≠ []
  ∧ trim (msg_message m) = msg_message m
  ∧ jlength (msg_message m) ≤ MAX_CHARACTERS_PER_MESSAGE.

(** No room object holds more messages than the limit. *)
Definition message_count_bounded (s : Server) : Prop :=
  ∀ l room, heap s !! l = Some room →
            Z.of_nat (length (messages room)) ≤ MAX_MESSAGES_PER_ROOM.

(** Every message of every room object is a [message_ok] one. *)
Definition messages_ok (s : Server) : Prop :=
  ∀ l room, heap s !! l = Some room → Forall message_ok (messages room).

(** How a cell of the heap may differ after a turn of the event loop: it
    stays empty, or a fresh empty room appears in it, or the room in it
    keeps its creation time and its messages, with at most one valid,
    trimmed message added at the end while below the limit. *)
Definition cell_grows (o o' : option Room) : Prop :=
  match o, o' with
  | None, None => True
  | None, Some room' => users room' = [] ∧ messages room' = []
  | Some room, Some room' =>
    createdAt room' = createdAt room
    ∧ (messages room' = messages room
       ∨ ∃ username t now,
           messages room' = messages room ++ [mkMessage username (trim t) now]
           ∧ validateMessage (PString t) = Valid
           ∧ Z.of_nat (length (messages room)) < MAX_MESSAGES_PER_ROOM)
  | Some _, None => False
  end.

(** One [send_message] event: who sends, under which name, what, and the
    two clock readings of the handler. *)
Record Sent : Type :=
  mkSent { sent_socket : string; sent_username : string; sent_text : jstring;
           sent_now1 : Z; sent_now2 : Z }.

(** The [send_message] events of a batch, all to one room. *)
Definition send_all (roomCode : string) (batch : list Sent) : list input :=
  (fun x => SendMessage (sent_socket x) roomCode (sent_username x)
                        (PString (sent_text x)) (sent_now1 x) (sent_now2 x))
    <$> batch.

(** The message stored for a [Sent], and its broadcast. *)
Definition stored_message (x : Sent) : Message :=
  mkMessage (sent_username x) (trim (sent_text x)) (sent_now1 x).

Definition broadcast_of (roomCode : string) (x : Sent) : effect :=
  RoomEmit roomCode (receive_message (sent_username x) (trim (sent_text x))).

(** No white space at the head of a text. *)
Definition clean_head (t : jstring) : Prop :=
  match t with
  | [] => True
  | c :: _ => is_js_space c = false
  end.

(** A model reply inside a Markdown fence: the opening fence with its
    optional language tag, white space, the body, white space, the closing
    fence. *)
Definition fenced (tag : string) (ws1 body ws2 : jstring) : jstring :=
  lit "```" ++ lit tag ++ ws1 ++ body ++ ws2 ++ lit "```".

End Stored.

Import Stored.

(* ====================================================================== *)
(** ** More sample data *)
(* ====================================================================== *)

Module Samples.

Local Open Scope string_scope.
Local Open Scope list_scope.
Local Open Scope Z_scope.

(** The events that lead from the empty server to [Scenario.chatting]. *)
Definition chat_inputs : list input :=
  [CreateRoom ["K3X9QZ"] 1000 1000;
   JoinRoom "sockA" "K3X9QZ" "Alice" 2000;
   JoinRoom "sockB" "K3X9QZ" "Bob" 3000;
   SendMessage "sockA" "K3X9QZ" "Alice" (PString (lit "hi")) 4000 4000;
   SendMessage "sockB" "K3X9QZ" "Bob" (PString (lit " hello ")) 5000 5001].

(** The room of [Scenario.chatting]. *)
Definition chatting_room : Room :=
  mkRoom [mkUser "sockA" "Alice"; mkUser "sockB" "Bob"]
         [mkMessage "Alice" (lit "hi") 4000; mkMessage "Bob" (lit "hello") 5000]
         5001 1000.

(** Two more messages, one from each participant. *)
Definition two_sent : list Sent :=
  [mkSent "sockA" "Alice" (lit "tea at five? ") 6000 6001;
   mkSent "sockB" "Bob" (lit "  yes") 7000 7001].

(** A thousand messages from one participant. *)
Definition thousand_sent : list Sent :=
  replicate 1000 (mkSent "sockA" "Alice" (lit "again") 4000 4000).

(** What the gateway makes of [Scenario.fenced_reply]. *)
Definition tea_summary : Summary :=
  mkSummary (JString (lit "No summary available")) [JString (lit "tea at five")] [].

End Samples.

(* ====================================================================== *)
(** ** The parser has fuel enough *)
(* ====================================================================== *)

Section JsonParser.

Implicit Types (s r : jstring) (v : json) (pv : jstring → option (json * jstring)).

Lemma skip_ws_length s : (length (skip_ws s) ≤ length s)%nat.
Proof.
  induction s as [|c s IH]; simpl; [done|].
  destruct (is_json_ws c); simpl; lia.
Qed.

Lemma take_digits_length s ds r :
  take_digits s = (ds, r) → (length r ≤ length s)%nat.
Proof.
  revert ds r. induction s as [|c s IH]; intros ds r; simpl.
  - by intros [= <- <-].
  - destruct (is_digit c).
    + destruct (take_digits s) as [ds' r'] eqn:Htd. intros [= <- <-].
      specialize (IH ds' r' eq_refl). lia.
    + intros [= <- <-]. simpl. lia.
Qed.

Lemma strip_prefix_length p s r :
  strip_prefix p s = Some r → (length r ≤ length s)%nat.
Proof.
  revert s. induction p as [|a p IH]; intros s; simpl.
  - intros [= <-]. done.
  - destruct s as [|b s]; [done|]. destruct (a =? b)%N; [|done].
    intros H%IH. simpl. lia.
Qed.

Lemma parse_chars_length s :
  ∀ acc k r, parse_chars s acc = Some (k, r) → (length r < length s)%nat.
Proof.
  remember (length s) as n eqn:Hn. revert s Hn.
  induction n as [n IH] using lt_wf_ind. intros s -> acc k r.
  destruct s as [|c rest]; simpl; [done|].
  destruct (c =? 34)%N; [intros [= <- <-]; lia|].
  destruct (c =? 92)%N.
  - destruct rest as [|e rest1]; [done|].
    repeat (match goal with
            | |- (if ?b then _ else _) = _ → _ => destruct b
            end);
      try (intros H; eapply (IH (length rest1)) in H; [simpl in *; lia| simpl; lia | done]);
      try done.
    destruct rest1 as [|h1 [|h2 [|h3 [|h4 rest2]]]]; try done.
    destruct (hex_digit h1), (hex_digit h2), (hex_digit h3), (hex_digit h4); try done.
    intros H; eapply (IH (length rest2)) in H; [simpl in *; lia| simpl; lia | done].
  - destruct (c <? 32)%N; [done|].
    intros H; eapply (IH (length rest)) in H; [simpl in *; lia| simpl; lia | done].
Qed.

Lemma number_int_length s ds r :
  number_int s = Some (ds, r) → (length r ≤ length s)%nat.
Proof.
  unfold number_int. destruct s as [|c s']; [done|].
  destruct (c =? 48)%N; [intros [= <- <-]; simpl; lia|].
  destruct (is_digit c); [|done].
  intros H. apply (inj Some) in H. by apply take_digits_length in H.
Qed.

Lemma number_frac_length s ds r :
  number_frac s = Some (ds, r) → (length r ≤ length s)%nat.
Proof.
  unfold number_frac. destruct s as [|c s']; [by intros [= <- <-]|].
  destruct (c =? 46)%N; [|by intros [= <- <-]].
  destruct (take_digits s') as [[|d ds'] r'] eqn:Htd; [done|].
  intros [= <- <-]. apply take_digits_length in Htd. simpl. lia.
Qed.

Lemma number_exp_length s ex r :
  number_exp s = Some (ex, r) → (length r ≤ length s)%nat.
Proof.
  unfold number_exp. destruct s as [|c s']; [by intros [= <- <-]|].
  destruct ((c =? 101) || (c =? 69))%N; [|by intros [= <- <-]].
  destruct s' as [|d r'].
  - destruct (take_digits []) as [[|d ds] r2] eqn:Htd; [done|].
    intros [= <- <-]. apply take_digits_length in Htd. simpl in *. lia.
  - destruct (d =? 45)%N; [|destruct (d =? 43)%N].
    + destruct (take_digits r') as [[|d' ds] r2] eqn:Htd; [done|].
      intros [= <- <-]. apply take_digits_length in Htd. simpl in *. lia.
    + destruct (take_digits r') as [[|d' ds] r2] eqn:Htd; [done|].
      intros [= <- <-]. apply take_digits_length in Htd. simpl in *. lia.
    + destruct (take_digits (d :: r')) as [[|d' ds] r2] eqn:Htd; [done|].
      intros [= <- <-]. apply take_digits_length in Htd. simpl in *. lia.
Qed.

Lemma parse_unsigned_length neg s v r :
  parse_unsigned neg s = Some (v, r) → (length r ≤ length s)%nat.
Proof.
  unfold parse_unsigned.
  destruct (number_int s) as [[ids s2]|] eqn:Hi; [|done].
  destruct (number_frac s2) as [[fds s3]|] eqn:Hf; [|done].
  destruct (number_exp s3) as [[ex s4]|] eqn:He; [|done].
  intros [= <- <-].
  apply number_int_length in Hi. apply number_frac_length in Hf.
  apply number_exp_length in He. lia.
Qed.

Lemma parse_number_length s v r :
  parse_number s = Some (v, r) → (length r ≤ length s)%nat.
Proof.
  unfold parse_number. destruct s as [|c s']; [apply parse_unsigned_length|].
  destruct (c =? 45)%N; intros H%parse_unsigned_length; simpl in *; lia.
Qed.

(** The loops over elements and members do not depend on how the values
    are parsed, as long as the values they meet are parsed alike. *)
Lemma parse_elements_transfer pv pv' fuel :
  (∀ x v r, pv x = Some (v, r) → (length r ≤ length x)%nat) →
  ∀ s acc res rest,
    (∀ x y, (length x ≤ length s)%nat → pv x = Some y → pv' x = Some y) →
    parse_elements pv fuel s acc = Some (res, rest) →
    parse_elements pv' fuel s acc = Some (res, rest)
    ∧ (length rest < length s)%nat.
Proof.
  intros Hshort. induction fuel as [|fuel IH]; intros s acc res rest Hsame; simpl; [done|].
  destruct (pv s) as [[v r]|] eqn:Hpv; [|done].
  rewrite (Hsame s (v, r)) by done.
  pose proof (Hshort _ _ _ Hpv) as Hr.
  pose proof (skip_ws_length r) as Hws.
  destruct (skip_ws r) as [|c r'] eqn:Hskip; [done|]. simpl in Hws.
  destruct (c =? 44)%N.
  - intros Hrec. apply IH in Hrec as [-> ?]; [split; [done|lia]|].
    intros x y Hx. apply Hsame. lia.
  - destruct (c =? 93)%N; [|done]. intros [= <- <-]. split; [done|lia].
Qed.

Lemma parse_members_transfer pv pv' fuel :
  (∀ x v r, pv x = Some (v, r) → (length r ≤ length x)%nat) →
  ∀ s acc res rest,
    (∀ x y, (length x ≤ length s)%nat → pv x = Some y → pv' x = Some y) →
    parse_members pv fuel s acc = Some (res, rest) →
    parse_members pv' fuel s acc = Some (res, rest)
    ∧ (length rest < length s)%nat.
Proof.
  intros Hshort. induction fuel as [|fuel IH]; intros s acc res rest Hsame; simpl; [done|].
  pose proof (skip_ws_length s) as Hws0.
  destruct (skip_ws s) as [|q r] eqn:Hskip0; [done|]. simpl in Hws0.
  destruct (q =? 34)%N; [|done].
  destruct (parse_chars r []) as [[k r1]|] eqn:Hkey; [|done].
  apply parse_chars_length in Hkey.
  pose proof (skip_ws_length r1) as Hws1.
  destruct (skip_ws r1) as [|c r2] eqn:Hskip1; [done|]. simpl in Hws1.
  destruct (c =? 58)%N; [|done].
  destruct (pv r2) as [[v r3]|] eqn:Hpv; [|done].
  rewrite (Hsame r2 (v, r3)) by (done || lia).
  pose proof (Hshort _ _ _ Hpv) as Hr3.
  pose proof (skip_ws_length r3) as Hws3.
  destruct (skip_ws r3) as [|d r4] eqn:Hskip3; [done|]. simpl in Hws3.
  destruct (d =? 44)%N.
  - intros Hrec. apply IH in Hrec as [-> ?]; [split; [done|lia]|].
    intros x y Hx. apply Hsame. lia.
  - destruct (d =? 125)%N; [|done]. intros [= <- <-]. split; [done|lia].
Qed.

(** A value, once parsed, leaves a remainder that is no longer than the
    input. *)
Lemma parse_value_length n :
  ∀ s v r, parse_value n s = Some (v, r) → (length r ≤ length s)%nat.
Proof.
  induction n as [|n IH]; intros s v r; cbn [parse_value]; [done|].
  pose proof (skip_ws_length s) as Hws.
  destruct (skip_ws s) as [|c rest] eqn:Hskip; [done|]. simpl in Hws.
  pose proof (skip_ws_length rest) as Hws'.
  destruct (c =? 123)%N.
  { destruct (skip_ws rest) as [|d rest'] eqn:Hskip'; [done|]. simpl in Hws'.
    destruct (d =? 125)%N; [intros [= <- <-]; lia|].
    intros H. eapply parse_members_transfer in H as [_ ?]; [lia|exact IH|eauto]. }
  destruct (c =? 91)%N.
  { destruct (skip_ws rest) as [|d rest'] eqn:Hskip'; [done|]. simpl in Hws'.
    destruct (d =? 93)%N; [intros [= <- <-]; lia|].
    intros H. eapply parse_elements_transfer in H as [_ ?]; [lia|exact IH|eauto]. }
  destruct (c =? 34)%N.
  { destruct (parse_chars rest []) as [[str r']|] eqn:Hstr; [|done].
    intros [= <- <-]. apply parse_chars_length in Hstr. lia. }
  destruct (c =? 116)%N.
  { destruct (strip_prefix (lit "true") (c :: rest)) as [r'|] eqn:Hp; [|done].
    intros [= <- <-]. apply strip_prefix_length in Hp. simpl in Hp. lia. }
  destruct (c =? 102)%N.
  { destruct (strip_prefix (lit "false") (c :: rest)) as [r'|] eqn:Hp; [|done].
    intros [= <- <-]. apply strip_prefix_length in Hp. simpl in Hp. lia. }
  destruct (c =? 110)%N.
  { destruct (strip_prefix (lit "null") (c :: rest)) as [r'|] eqn:Hp; [|done].
    intros [= <- <-]. apply strip_prefix_length in Hp. simpl in Hp. lia. }
  intros H%parse_number_length. simpl in H. lia.
Qed.

(** One level of [parse_value] with another parser underneath. *)
Lemma parse_value_step_transfer n m s res :
  (∀ x y, (length x < length s)%nat →
          parse_value n x = Some y → parse_value m x = Some y) →
  parse_value (S n) s = Some res → parse_value (S m) s = Some res.
Proof.
  intros Hsame. cbn [parse_value].
  pose proof (skip_ws_length s) as Hws.
  destruct (skip_ws s) as [|c rest] eqn:Hskip; [done|]. simpl in Hws.
  destruct res as [v r].
  destruct (c =? 123)%N.
  { destruct (skip_ws rest) as [|d rest'] eqn:Hskip'; [done|].
    destruct (d =? 125)%N; [done|].
    intros H. eapply parse_members_transfer in H as [H _]; [exact H|apply parse_value_length|].
    intros x y Hx. apply Hsame. lia. }
  destruct (c =? 91)%N.
  { destruct (skip_ws rest) as [|d rest'] eqn:Hskip'; [done|].
    destruct (d =? 93)%N; [done|].
    intros H. eapply parse_elements_transfer in H as [H _]; [exact H|apply parse_value_length|].
    intros x y Hx. apply Hsame. lia. }
  done.
Qed.

(** More fuel does not change a result. *)
Lemma parse_value_mono n :
  ∀ m s res, (n ≤ m)%nat → parse_value n s = Some res → parse_value m s = Some res.
Proof.
  induction n as [|n IH]; intros m s res Hle; [done|].
  destruct m as [|m]; [lia|].
  apply parse_value_step_transfer. intros x y _. apply IH. lia.
Qed.

(** A successful parse needs no more fuel than the length of its input. *)
Lemma parse_value_bound n :
  ∀ s res, parse_value n s = Some res → parse_value (length s) s = Some res.
Proof.
  induction n as [|n IH]; intros s res; [done|].
  destruct s as [|c s']; [done|]. cbn [length].
  apply parse_value_step_transfer. intros x y Hx Hparse.
  apply (parse_value_mono (length x)); [simpl in Hx; lia|]. by apply IH.
Qed.

(** No amount of fuel parses a text that [JSON_parse] rejects: its fuel
    is enough for every text. *)
Lemma JSON_parse_fuel_enough n text res :
  parse_value n text = Some res → parse_value (S (length text)) text = Some res.
Proof.
  intros H%parse_value_bound. by apply (parse_value_mono (length text)); [lia|].
Qed.

(** [JSON_parse] accepts whatever some fuel accepts. *)
Lemma JSON_parse_complete n text v r :
  parse_value n text = Some (v, r) → skip_ws r = [] → JSON_parse text = Some v.
Proof.
  intros Hparse Hrest. unfold JSON_parse.
  by rewrite (JSON_parse_fuel_enough _ _ _ Hparse), Hrest.
Qed.

End JsonParser.

(* ====================================================================== *)
(** ** Basic facts about the room table *)
(* ====================================================================== *)

Section RoomTable.

Implicit Types (s : Server) (roomCode socket : string) (l : nat) (room : Room).

Lemma room_at_Some s roomCode l room :
  room_at s roomCode = Some (l, room) ↔
  rooms s !! roomCode = Some l ∧ heap s !! l = Some room.
Proof.
  unfold room_at. split.
  - destruct (rooms s !! roomCode) as [l'|]; [|done].
    destruct (heap s !! l') as [room'|] eqn:Hroom; [|done].
    by intros [= <- <-].
  - by intros [-> ->].
Qed.

Lemma room_at_set_room s roomCode l room room' :
  room_at s roomCode = Some (l, room) →
  room_at (set_room l room' s) roomCode = Some (l, room').
Proof.
  intros [Hc _]%room_at_Some. apply room_at_Some. simpl.
  split; [done | apply lookup_insert_eq].
Qed.

(** Rooms stay in the table under [set_room]. *)
Lemma rooms_set_room s l room : rooms (set_room l room s) = rooms s.
Proof. reflexivity. Qed.

Lemma room_exists_true s roomCode :
  room_exists roomCode s = true ↔ is_Some (rooms s !! roomCode).
Proof.
  unfold room_exists.
  destruct (rooms s !! roomCode) as [l|]; split; intros H;
    first [done | by eexists | by destruct H].
Qed.

Lemma well_formed_room_at_None s roomCode :
  well_formed s → room_at s roomCode = None → room_exists roomCode s = false.
Proof.
  intros Hwf. unfold room_at, room_exists.
  destruct (rooms s !! roomCode) as [l|] eqn:Hc; [|done].
  destruct (Hwf _ _ Hc) as [room ->]. done.
Qed.

End RoomTable.

(* ====================================================================== *)
(** ** The table stays well formed *)
(* ====================================================================== *)

Section WellFormed.

Implicit Types (s : Server) (roomCode socket : string) (l : nat) (room : Room).

Lemma well_formed_empty : well_formed empty_server.
Proof. intros roomCode l. simpl. by rewrite lookup_empty. Qed.

Lemma well_formed_set_room s l room :
  well_formed s → well_formed (set_room l room s).
Proof.
  intros Hwf roomCode l' Hc. simpl in *.
  destruct (decide (l = l')) as [->|Hne].
  - rewrite lookup_insert_eq. by eexists.
  - rewrite lookup_insert_ne; [by eapply Hwf | done].
Qed.

Lemma well_formed_cleanupRoom s roomCode :
  well_formed s → well_formed (cleanupRoom roomCode s).
Proof.
  intros Hwf. unfold cleanupRoom.
  destruct (rooms s !! roomCode) eqn:Hc; [|done].
  intros c l'. simpl. intros Hd.
  apply lookup_delete_Some in Hd as [_ Hd]. by eapply Hwf.
Qed.

Lemma well_formed_cleanup_all s (codes : list string) :
  well_formed s →
  well_formed (foldl (fun s' roomCode => cleanupRoom roomCode s') s codes).
Proof.
  revert s. induction codes as [|c codes IH]; intros s Hwf; simpl; [done|].
  apply IH. by apply well_formed_cleanupRoom.
Qed.

Lemma well_formed_leave_room s socket roomCode now :
  well_formed s → well_formed (fst (leave_room socket roomCode now s)).
Proof.
  intros Hwf. unfold leave_room.
  destruct (room_at s roomCode) as [[l room]|]; simpl; [|done].
  by apply well_formed_set_room.
Qed.

Lemma well_formed_disconnecting socket socket_rooms s :
  well_formed s → well_formed (fst (disconnecting socket socket_rooms s)).
Proof.
  revert s. induction socket_rooms as [|[roomCode now] more IH]; intros s Hwf.
  - done.
  - simpl.
    pose proof (well_formed_leave_room s socket roomCode now Hwf) as H1.
    destruct (leave_room socket roomCode now s) as [s1 out1]. simpl in H1.
    specialize (IH s1 H1).
    destruct (disconnecting socket more s1) as [s2 out2]. done.
Qed.

Lemma well_formed_create_room generated now1 now2 s s' roomCode :
  well_formed s →
  create_room generated now1 now2 s = Some (s', roomCode) →
  well_formed s'.
Proof.
  intros Hwf. unfold create_room.
  destruct (first_free_code generated s) as [c|]; [|done].
  intros [= <- <-] c' l'. simpl. intros Hc.
  destruct (decide (fresh (dom (heap s)) = l')) as [<-|Hne].
  - rewrite lookup_insert_eq. by eexists.
  - rewrite lookup_insert_ne; [|done].
    apply lookup_insert_Some in Hc as [[_ ?]|[_ Hc]]; [done|]. by eapply Hwf.
Qed.

(** Every turn of the event loop keeps the table well formed. *)
Lemma well_formed_step i s : well_formed s → well_formed (fst (step i s)).
Proof.
  intros Hwf. destruct i as [g n1 n2|sk c u n|sk c u m n1 n2|sk c|k o|k|sk sr|n]; simpl.
  - destruct (create_room g n1 n2 s) as [[s' c]|] eqn:Hcr; simpl; [|done].
    by eapply well_formed_create_room.
  - unfold join_room. destruct (room_at s c) as [[l room]|]; simpl; [|done].
    by apply well_formed_set_room.
  - unfold send_message. destruct (room_at s c) as [[l room]|]; simpl; [|done].
    destruct (validateMessage m); [|done].
    destruct (hasReachedMessageLimit c s); simpl; [done|].
    by apply well_formed_set_room.
  - unfold generate_summary. destruct (room_at s c) as [[l room]|]; simpl; [|done].
    destruct (messages room); [done|].
    destruct (generateSummary_call c s); simpl; [|done].
    intros c' l'. simpl. apply Hwf.
  - destruct (pending s !! k) as [p|]; [|done].
    unfold generate_summary_resume.
    destruct (generateSummary_return o); simpl; intros c' l'; simpl; apply Hwf.
  - destruct (timers s !! k) as [c|]; [|done].
    unfold cleanup_timeout. simpl.
    apply well_formed_cleanupRoom. intros c' l'. simpl. apply Hwf.
  - by apply well_formed_disconnecting.
  - unfold cleanup_interval, expireInactiveRooms. simpl.
    by apply well_formed_cleanup_all.
Qed.

Lemma well_formed_run inputs s : well_formed s → well_formed (fst (run inputs s)).
Proof.
  revert s. induction inputs as [|i more IH]; intros s Hwf; simpl; [done|].
  pose proof (well_formed_step i s Hwf) as H1.
  destruct (step i s) as [s1 out1]. simpl in H1.
  specialize (IH s1 H1). by destruct (run more s1).
Qed.

End WellFormed.

(* ====================================================================== *)
(** ** The message validator and [send_message] *)
(* ====================================================================== *)

Section Messages.

Local Open Scope string_scope.
Local Open Scope list_scope.
Local Open Scope Z_scope.

Implicit Types (s : Server) (roomCode socket username : string)
         (l : nat) (room : Room) (t : jstring).

(** What the validator accepts: a string with something left after
    trimming, whose raw length is within the limit. *)
Lemma validateMessage_Valid t :
  validateMessage (PString t) = Valid ↔
  0 < jlength (trim t) ∧ jlength t ≤ MAX_CHARACTERS_PER_MESSAGE.
Proof.
  unfold validateMessage, jlength. destruct t as [|c t'].
  - split; [done|]. cbn. lia.
  - destruct (Z.eqb_spec (Z.of_nat (length (trim (c :: t')))) 0) as [H0|H0].
    + split; [done | lia].
    + destruct (Z.ltb_spec MAX_CHARACTERS_PER_MESSAGE
                           (Z.of_nat (length (c :: t')))) as [Hlen|Hlen].
      * split; [done | lia].
      * split; [lia | done].
Qed.

Lemma validateMessage_other : validateMessage POther ≠ Valid.
Proof. done. Qed.

Lemma hasReachedMessageLimit_false s roomCode l room :
  room_at s roomCode = Some (l, room) →
  hasReachedMessageLimit roomCode s = false ↔
  Z.of_nat (length (messages room)) < MAX_MESSAGES_PER_ROOM.
Proof.
  intros Hroom. unfold hasReachedMessageLimit. rewrite Hroom.
  apply Z.leb_gt.
Qed.

(** What an accepted [send_message] does. *)
Lemma send_message_accepted s socket roomCode username t now1 now2 l room :
  room_at s roomCode = Some (l, room) →
  validateMessage (PString t) = Valid →
  hasReachedMessageLimit roomCode s = false →
  send_message socket roomCode username (PString t) now1 now2 s =
    (set_room l (mkRoom (users room)
                        (messages room ++ [mkMessage username (trim t) now1])
                        now2 (createdAt room)) s,
     [RoomEmit roomCode (receive_message username (trim t))]).
Proof.
  intros Hroom Hvalid Hlimit. unfold send_message.
  by rewrite Hroom, Hvalid, Hlimit.
Qed.

(** C3, as amended.  For every text whose trimmed form is not empty and
    whose raw length is at most the maximum (5000), [send_message] on an
    existing room below the message limit succeeds: the room's messages
    are the former ones followed by one message whose text is the
    trimmed text, and that message is broadcast to the room. *)
Theorem send_message_stores_trimmed s socket roomCode username t now1 now2 l room :
  room_at s roomCode = Some (l, room) →
  Z.of_nat (length (messages room)) < MAX_MESSAGES_PER_ROOM →
  0 < jlength (trim t) →
  jlength t ≤ MAX_CHARACTERS_PER_MESSAGE →
  ∃ room',
    room_at (fst (send_message socket roomCode username (PString t) now1 now2 s))
            roomCode = Some (l, room')
    ∧ messages room' = messages room ++ [mkMessage username (trim t) now1]
    ∧ snd (send_message socket roomCode username (PString t) now1 now2 s) =
        [RoomEmit roomCode (receive_message username (trim t))].
Proof.
  intros Hroom Hcount Htrim Hlen.
  assert (validateMessage (PString t) = Valid) as Hvalid
    by (apply validateMessage_Valid; done).
  assert (hasReachedMessageLimit roomCode s = false) as Hlimit
    by (by eapply hasReachedMessageLimit_false).
  rewrite (send_message_accepted _ _ _ _ _ _ _ _ _ Hroom Hvalid Hlimit). simpl.
  eexists. split; [by eapply room_at_set_room|]. done.
Qed.

Lemma send_message_stores_trimmed_witness :
  ∃ room',
    room_at (fst (send_message "sockB" "K3X9QZ" "Bob" (PString (lit " hello "))
                               5000 5001 Scenario.lobby))
            "K3X9QZ" = Some (0%nat, room')
    ∧ messages room' = [] ++ [mkMessage "Bob" (trim (lit " hello ")) 5000]
    ∧ snd (send_message "sockB" "K3X9QZ" "Bob" (PString (lit " hello "))
                        5000 5001 Scenario.lobby) =
        [RoomEmit "K3X9QZ" (receive_message "Bob" (trim (lit " hello ")))].
Proof.
  apply (send_message_stores_trimmed Scenario.lobby "sockB" "K3X9QZ" "Bob"
           (lit " hello ") 5000 5001 0%nat (mkRoom [] [] 1000 1000)).
  - vm_compute. reflexivity.
  - vm_compute. reflexivity.
  - vm_compute. reflexivity.
  - vm_compute. discriminate.
Defined.

(** C3, as stated, fails: five thousand spaces followed by a letter trim
    to a text of length 1, yet the message is refused because the raw
    text is 5001 long; nothing is stored. *)
Lemma padded_message_refused :
  0 < jlength (trim Scenario.padded) ≤ MAX_CHARACTERS_PER_MESSAGE
  ∧ room_at Scenario.lobby "K3X9QZ" = Some (0%nat, mkRoom [] [] 1000 1000)
  ∧ hasReachedMessageLimit "K3X9QZ" Scenario.lobby = false
  ∧ send_message "sockA" "K3X9QZ" "Alice" (PString Scenario.padded) 2000 2000
                 Scenario.lobby =
      (Scenario.lobby,
       [SocketEmit "sockA"
          (error "Message exceeds maximum length of 5000 characters")]).
Proof.
  assert (trim Scenario.padded = lit "a") as -> by (vm_compute; reflexivity).
  split; [split; by vm_compute|].
  split; [vm_compute; reflexivity|].
  split; [vm_compute; reflexivity|].
  vm_compute. reflexivity.
Qed.

(** C4.  In a room whose message count has reached the maximum (1000),
    [send_message] of a valid text fails with the limit error sent to the
    sender alone, and the server state is unchanged: the room still
    holds exactly the same 1000 messages. *)
Theorem send_message_room_full s socket roomCode username t now1 now2 l room :
  room_at s roomCode = Some (l, room) →
  Z.of_nat (length (messages room)) = MAX_MESSAGES_PER_ROOM →
  validateMessage (PString t) = Valid →
  send_message socket roomCode username (PString t) now1 now2 s =
    (s, [SocketEmit socket (error "Room has reached maximum message limit of 1000")])
  ∧ ∃ room',
      room_at (fst (send_message socket roomCode username (PString t) now1 now2 s))
              roomCode = Some (l, room')
      ∧ messages room' = messages room
      ∧ Z.of_nat (length (messages room')) = MAX_MESSAGES_PER_ROOM.
Proof.
  intros Hroom Hfull Hvalid.
  assert (send_message socket roomCode username (PString t) now1 now2 s =
          (s, [SocketEmit socket
                 (error "Room has reached maximum message limit of 1000")])) as Heq.
  { unfold send_message, hasReachedMessageLimit. rewrite Hroom, Hvalid.
    destruct (Z.leb_spec MAX_MESSAGES_PER_ROOM (Z.of_nat (length (messages room))));
      [done | lia]. }
  rewrite Heq. split; [done|]. by exists room.
Qed.

Lemma send_message_room_full_witness :
  send_message "sockB" "K3X9QZ" "Bob" (PString (lit "one more")) 9000 9000
               Scenario.crowded =
    (Scenario.crowded,
     [SocketEmit "sockB" (error "Room has reached maximum message limit of 1000")])
  ∧ ∃ room',
      room_at (fst (send_message "sockB" "K3X9QZ" "Bob" (PString (lit "one more"))
                                 9000 9000 Scenario.crowded))
              "K3X9QZ" = Some (0%nat, room')
      ∧ messages room' = repeat (mkMessage "Alice" (lit "again") 4000) 1000
      ∧ Z.of_nat (length (messages room')) = MAX_MESSAGES_PER_ROOM.
Proof.
  apply (send_message_room_full Scenario.crowded "sockB" "K3X9QZ" "Bob"
           (lit "one more") 9000 9000 0%nat
           (mkRoom [] (repeat (mkMessage "Alice" (lit "again") 4000) 1000) 4000 1000)).
  - vm_compute. reflexivity.
  - vm_compute. reflexivity.
  - vm_compute. reflexivity.
Defined.

End Messages.

(* ====================================================================== *)
(** ** [generate_summary]: the request *)
(* ====================================================================== *)

Section SummaryRequest.

Local Open Scope string_scope.
Local Open Scope list_scope.
Local Open Scope Z_scope.

Implicit Types (s : Server) (roomCode socket : string) (l : nat) (room : Room).

(** The guard of [generateSummary] repeats the one of the handler. *)
Lemma generateSummary_call_nonempty s roomCode l room :
  room_at s roomCode = Some (l, room) →
  messages room ≠ [] →
  generateSummary_call roomCode s = inl (messages room).
Proof.
  intros Hroom Hne. unfold generateSummary_call. rewrite Hroom.
  by destruct (messages room).
Qed.

(** A request on a room that has messages goes through to the model,
    whatever else is going on. *)
Lemma generate_summary_accepted s socket roomCode l room :
  room_at s roomCode = Some (l, room) →
  messages room ≠ [] →
  generate_summary socket roomCode s =
    (mkServer (heap s) (rooms s)
              (pending s ++ [mkPending socket roomCode l]) (timers s),
     [SocketEmit socket (summary_generating roomCode);
      GenerateContent (messages room)]).
Proof.
  intros Hroom Hne. unfold generate_summary. rewrite Hroom.
  rewrite (generateSummary_call_nonempty _ _ _ _ Hroom Hne).
  by destruct (messages room).
Qed.

(** The table and the room objects do not depend on the requests in
    flight or on the running timers. *)
Lemma room_at_same_table s s' roomCode :
  heap s' = heap s → rooms s' = rooms s → room_at s' roomCode = room_at s roomCode.
Proof. intros Hh Hr. unfold room_at. by rewrite Hh, Hr. Qed.

(** C5.  On an existing room without messages, [generate_summary] sends
    the "No messages to summarize" error to the requester and does
    nothing else: the model is not called and the server state, hence
    the room, is as before. *)
Theorem generate_summary_empty_room s socket roomCode l room :
  room_at s roomCode = Some (l, room) →
  messages room = [] →
  generate_summary socket roomCode s =
    (s, [SocketEmit socket (error "No messages to summarize")])
  ∧ gateway_calls (snd (generate_summary socket roomCode s)) = 0%nat
  ∧ room_at (fst (generate_summary socket roomCode s)) roomCode = Some (l, room).
Proof.
  intros Hroom Hempty.
  assert (generate_summary socket roomCode s =
          (s, [SocketEmit socket (error "No messages to summarize")])) as Heq.
  { unfold generate_summary. by rewrite Hroom, Hempty. }
  rewrite Heq. done.
Qed.

Lemma generate_summary_empty_room_witness :
  generate_summary "sockA" "K3X9QZ" Scenario.lobby =
    (Scenario.lobby, [SocketEmit "sockA" (error "No messages to summarize")])
  ∧ gateway_calls (snd (generate_summary "sockA" "K3X9QZ" Scenario.lobby)) = 0%nat
  ∧ room_at (fst (generate_summary "sockA" "K3X9QZ" Scenario.lobby)) "K3X9QZ" =
      Some (0%nat, mkRoom [] [] 1000 1000).
Proof.
  apply (generate_summary_empty_room Scenario.lobby "sockA" "K3X9QZ" 0%nat
           (mkRoom [] [] 1000 1000)).
  - vm_compute. reflexivity.
  - reflexivity.
Defined.

(** C1, as stated, fails: while Alice's request is waiting for the
    model, Bob's request on the same room is not refused; it calls the
    model too, so the two requests make two calls. *)
Lemma concurrent_requests_both_call_model :
  pending Scenario.summarizing = [mkPending "sockA" "K3X9QZ" 0%nat]
  ∧ snd (generate_summary "sockB" "K3X9QZ" Scenario.summarizing) =
      [SocketEmit "sockB" (summary_generating "K3X9QZ");
       GenerateContent [mkMessage "Alice" (lit "hi") 4000;
                        mkMessage "Bob" (lit "hello") 5000]]
  ∧ gateway_calls
      (snd (run [GenerateSummary "sockA" "K3X9QZ"; GenerateSummary "sockB" "K3X9QZ"]
                Scenario.chatting)) = 2%nat.
Proof. repeat split; vm_compute; reflexivity. Qed.

(** C1, as amended.  A summarize request on a room that has messages is
    always accepted, also while another request on that room is in
    flight: no summarizing state is recorded, the room table and the room
    objects are left as they are, the request is added to the pending
    ones and the model is called.  Of two concurrent requests on one
    room, both proceed to the call. *)
Theorem concurrent_requests_both_proceed s socket1 socket2 roomCode l room :
  room_at s roomCode = Some (l, room) →
  messages room ≠ [] →
  ∃ s1 s2,
    generate_summary socket1 roomCode s =
      (s1, [SocketEmit socket1 (summary_generating roomCode);
            GenerateContent (messages room)])
    ∧ heap s1 = heap s ∧ rooms s1 = rooms s
    ∧ pending s1 = pending s ++ [mkPending socket1 roomCode l]
    ∧ generate_summary socket2 roomCode s1 =
        (s2, [SocketEmit socket2 (summary_generating roomCode);
              GenerateContent (messages room)])
    ∧ heap s2 = heap s ∧ rooms s2 = rooms s
    ∧ pending s2 =
        pending s ++ [mkPending socket1 roomCode l; mkPending socket2 roomCode l].
Proof.
  intros Hroom Hne.
  pose proof (generate_summary_accepted s socket1 roomCode l room Hroom Hne) as H1.
  set (s1 := mkServer (heap s) (rooms s)
                      (pending s ++ [mkPending socket1 roomCode l]) (timers s)) in *.
  assert (room_at s1 roomCode = Some (l, room)) as Hroom1
    by (by rewrite (room_at_same_table s s1)).
  pose proof (generate_summary_accepted s1 socket2 roomCode l room Hroom1 Hne) as H2.
  eexists s1, _.
  split; [exact H1|]. do 3 (split; [reflexivity|]).
  split; [exact H2|]. do 2 (split; [reflexivity|]).
  simpl. by rewrite <- app_assoc.
Qed.

Lemma concurrent_requests_both_proceed_witness :
  ∃ s1 s2,
    generate_summary "sockA" "K3X9QZ" Scenario.chatting =
      (s1, [SocketEmit "sockA" (summary_generating "K3X9QZ");
            GenerateContent [mkMessage "Alice" (lit "hi") 4000;
                             mkMessage "Bob" (lit "hello") 5000]])
    ∧ heap s1 = heap Scenario.chatting ∧ rooms s1 = rooms Scenario.chatting
    ∧ pending s1 = pending Scenario.chatting ++ [mkPending "sockA" "K3X9QZ" 0%nat]
    ∧ generate_summary "sockB" "K3X9QZ" s1 =
        (s2, [SocketEmit "sockB" (summary_generating "K3X9QZ");
              GenerateContent [mkMessage "Alice" (lit "hi") 4000;
                               mkMessage "Bob" (lit "hello") 5000]])
    ∧ heap s2 = heap Scenario.chatting ∧ rooms s2 = rooms Scenario.chatting
    ∧ pending s2 =
        pending Scenario.chatting
        ++ [mkPending "sockA" "K3X9QZ" 0%nat; mkPending "sockB" "K3X9QZ" 0%nat].
Proof.
  apply (concurrent_requests_both_proceed Scenario.chatting "sockA" "sockB" "K3X9QZ"
           0%nat
           (mkRoom [mkUser "sockA" "Alice"; mkUser "sockB" "Bob"]
                   [mkMessage "Alice" (lit "hi") 4000;
                    mkMessage "Bob" (lit "hello") 5000]
                   5001 1000)).
  - vm_compute. reflexivity.
  - discriminate.
Defined.

End SummaryRequest.

(* ====================================================================== *)
(** ** The summarization gateway *)
(* ====================================================================== *)

Section Gateway.

Local Open Scope string_scope.
Local Open Scope list_scope.
Local Open Scope Z_scope.

Implicit Types (text : jstring) (summaryData : json) (o : model_outcome).

(** Reading a property throws on [null] only. *)
Lemma property_None summaryData name :
  property summaryData name = None ↔ summaryData = JNull.
Proof. destruct summaryData; simpl; split; intros H; done. Qed.

Lemma structure_response_None summaryData :
  structure_response summaryData = None ↔ summaryData = JNull.
Proof.
  split.
  - unfold structure_response.
    destruct (property summaryData "summary") as [sm|] eqn:Hs;
      [|intros _; by eapply property_None].
    destruct (property summaryData "keyPoints") as [kp|] eqn:Hk;
      [|intros _; by eapply property_None].
    destruct (property summaryData "actionItems") as [ai|] eqn:Ha;
      [done | intros _; by eapply property_None].
  - by intros ->.
Qed.

(** X21.  When the gateway throws: exactly when the call failed, the
    cleaned text is not JSON, or it is the JSON text [null]; and always
    with the same error text. *)
Lemma generateSummary_return_inr o e :
  generateSummary_return o = inr e ↔
  e = "Failed to generate summary. Please try again."
  ∧ (o = ModelFailed
     ∨ ∃ text, o = ModelReplied text
               ∧ (JSON_parse (clean_reply text) = None
                  ∨ JSON_parse (clean_reply text) = Some JNull)).
Proof.
  unfold generateSummary_return. destruct o as [|text].
  - split; [intros [= <-]; eauto | by intros [-> _]].
  - destruct (JSON_parse (clean_reply text)) as [summaryData|] eqn:Hparse.
    + destruct (structure_response summaryData) as [result|] eqn:Hstruct.
      * split; [done|].
        intros [_ [?|(text' & [= <-] & [?|?])]]; simplify_eq; done.
      * apply structure_response_None in Hstruct as ->.
        split; [intros [= <-]; split; [done|]; right; eauto | by intros [-> _]].
    + split; [intros [= <-]; split; [done|]; right; eauto | by intros [-> _]].
Qed.

(** C7, as stated, fails.  The reply [null] is valid JSON, yet the
    gateway throws on it; and where the overview is missing, as in the
    reply [{}], the overview of the result is not an empty string but
    the text "No summary available". *)
Lemma null_reply_is_gateway_error :
  JSON_parse (clean_reply (lit "null")) = Some JNull
  ∧ generateSummary_return (ModelReplied (lit "null")) =
      inr "Failed to generate summary. Please try again."
  ∧ JSON_parse (clean_reply (lit "{}")) = Some (JObject [])
  ∧ generateSummary_return (ModelReplied (lit "{}")) =
      inl (mkSummary (JString (lit "No summary available")) [] []).
Proof. repeat split; vm_compute; reflexivity. Qed.

(** C7, as amended.  For every reply whose cleaned text parses to a JSON
    value other than [null], the gateway returns a summary; in it a
    missing (or falsy) [summary] is replaced by the text
    "No summary available", a missing (or non-array) [keyPoints] by the
    empty list, and a missing (or non-array) [actionItems] by the empty
    list.  So the gateway throws on a reply only when the cleaned text is
    not JSON or is [null]. *)
Theorem gateway_defaults_missing_fields text summaryData :
  JSON_parse (clean_reply text) = Some summaryData →
  summaryData ≠ JNull →
  ∃ result,
    generateSummary_return (ModelReplied text) = inl result
    ∧ (property summaryData "summary" = Some None →
       summary result = JString (lit "No summary available"))
    ∧ (property summaryData "keyPoints" = Some None → keyPoints result = [])
    ∧ (property summaryData "actionItems" = Some None → actionItems result = [])
    ∧ (∀ v, property summaryData "summary" = Some (Some v) →
            summary result =
              if truthy v then v else JString (lit "No summary available"))
    ∧ (∀ v, property summaryData "keyPoints" = Some (Some v) →
            keyPoints result = match v with JArray xs => xs | _ => [] end)
    ∧ (∀ v, property summaryData "actionItems" = Some (Some v) →
            actionItems result = match v with JArray xs => xs | _ => [] end).
Proof.
  intros Hparse Hnull. unfold generateSummary_return. rewrite Hparse.
  destruct (structure_response summaryData) as [result|] eqn:Hstruct;
    [|by apply structure_response_None in Hstruct].
  exists result. split; [done|].
  unfold structure_response in Hstruct.
  destruct (property summaryData "summary") as [sm|]; [|done].
  destruct (property summaryData "keyPoints") as [kp|]; [|done].
  destruct (property summaryData "actionItems") as [ai|]; [|done].
  injection Hstruct as <-. simpl.
  repeat split; intros; simplify_eq; done.
Qed.

Lemma gateway_defaults_missing_fields_witness :
  ∃ result,
    generateSummary_return (ModelReplied Scenario.fenced_reply) = inl result
    ∧ (property (JObject [(lit "keyPoints", JArray [JString (lit "tea at five")])])
                "summary" = Some None →
       summary result = JString (lit "No summary available"))
    ∧ (property (JObject [(lit "keyPoints", JArray [JString (lit "tea at five")])])
                "keyPoints" = Some None → keyPoints result = [])
    ∧ (property (JObject [(lit "keyPoints", JArray [JString (lit "tea at five")])])
                "actionItems" = Some None → actionItems result = [])
    ∧ (∀ v, property (JObject [(lit "keyPoints", JArray [JString (lit "tea at five")])])
                     "summary" = Some (Some v) →
            summary result =
              if truthy v then v else JString (lit "No summary available"))
    ∧ (∀ v, property (JObject [(lit "keyPoints", JArray [JString (lit "tea at five")])])
                     "keyPoints" = Some (Some v) →
            keyPoints result = match v with JArray xs => xs | _ => [] end)
    ∧ (∀ v, property (JObject [(lit "keyPoints", JArray [JString (lit "tea at five")])])
                     "actionItems" = Some (Some v) →
            actionItems result = match v with JArray xs => xs | _ => [] end).
Proof.
  apply (gateway_defaults_missing_fields Scenario.fenced_reply
           (JObject [(lit "keyPoints", JArray [JString (lit "tea at five")])])).
  - vm_compute. reflexivity.
  - discriminate.
Defined.

End Gateway.

(* ====================================================================== *)
(** ** [generate_summary]: the answer of the model *)
(* ====================================================================== *)

Section SummaryAnswer.

Local Open Scope string_scope.
Local Open Scope list_scope.
Local Open Scope Z_scope.

Implicit Types (s : Server) (roomCode socket : string) (l : nat) (room : Room)
         (p : Pending) (o : model_outcome).

(** A failed call and a reply that is not JSON make the gateway throw. *)
Lemma generateSummary_return_failed :
  generateSummary_return ModelFailed =
    inr "Failed to generate summary. Please try again.".
Proof. reflexivity. Qed.

Lemma generateSummary_return_unparseable text :
  JSON_parse (clean_reply text) = None →
  generateSummary_return (ModelReplied text) =
    inr "Failed to generate summary. Please try again.".
Proof. intros Hparse. unfold generateSummary_return. by rewrite Hparse. Qed.

(** The handler's [catch]: the error goes to the socket that asked. *)
Lemma generate_summary_resume_failure p o s e :
  generateSummary_return o = inr e →
  generate_summary_resume p o s = (s, [SocketEmit (p_socket p) (error e)]).
Proof. intros Hfail. unfold generate_summary_resume. by rewrite Hfail. Qed.

(** C6.  When the gateway fails for the [i]-th pending request (the call
    to the model failed, or its reply is not JSON), the only effect is
    the error sent to the socket that made the request; the room table,
    the room objects (so the stored messages) and the timers are as
    before, no room is removed, and a later summarize request on that
    room, by any socket, is accepted and calls the model again. *)
Theorem gateway_failure_keeps_room s i p o :
  pending s !! i = Some p →
  (o = ModelFailed
   ∨ ∃ text, o = ModelReplied text ∧ JSON_parse (clean_reply text) = None) →
  snd (step (ModelAnswers i o) s) =
    [SocketEmit (p_socket p) (error "Failed to generate summary. Please try again.")]
  ∧ heap (fst (step (ModelAnswers i o) s)) = heap s
  ∧ rooms (fst (step (ModelAnswers i o) s)) = rooms s
  ∧ timers (fst (step (ModelAnswers i o) s)) = timers s
  ∧ (∀ roomCode, room_at (fst (step (ModelAnswers i o) s)) roomCode = room_at s roomCode)
  ∧ (∀ socket l room,
        room_at s (p_roomCode p) = Some (l, room) →
        messages room ≠ [] →
        snd (generate_summary socket (p_roomCode p) (fst (step (ModelAnswers i o) s))) =
          [SocketEmit socket (summary_generating (p_roomCode p));
           GenerateContent (messages room)]).
Proof.
  intros Hp Hfail.
  assert (generateSummary_return o =
          inr "Failed to generate summary. Please try again.") as Hret.
  { destruct Hfail as [->|(text & -> & Hparse)].
    - apply generateSummary_return_failed.
    - by apply generateSummary_return_unparseable. }
  simpl. rewrite Hp.
  rewrite (generate_summary_resume_failure _ _ _ _ Hret). simpl.
  do 4 (split; [reflexivity|]).
  split; [intros roomCode; by apply room_at_same_table|].
  intros socket l room Hroom Hne.
  rewrite (generate_summary_accepted _ socket (p_roomCode p) l room); [done| |done].
  by rewrite (room_at_same_table s).
Qed.

Lemma gateway_failure_keeps_room_witness :
  snd (step (ModelAnswers 0 (ModelReplied (lit "Sorry, I cannot do that.")))
            Scenario.summarizing) =
    [SocketEmit "sockA" (error "Failed to generate summary. Please try again.")]
  ∧ heap (fst (step (ModelAnswers 0 (ModelReplied (lit "Sorry, I cannot do that.")))
                    Scenario.summarizing)) = heap Scenario.summarizing
  ∧ rooms (fst (step (ModelAnswers 0 (ModelReplied (lit "Sorry, I cannot do that.")))
                     Scenario.summarizing)) = rooms Scenario.summarizing
  ∧ timers (fst (step (ModelAnswers 0 (ModelReplied (lit "Sorry, I cannot do that.")))
                      Scenario.summarizing)) = timers Scenario.summarizing
  ∧ (∀ roomCode,
        room_at (fst (step (ModelAnswers 0 (ModelReplied (lit "Sorry, I cannot do that.")))
                           Scenario.summarizing)) roomCode =
        room_at Scenario.summarizing roomCode)
  ∧ (∀ socket l room,
        room_at Scenario.summarizing "K3X9QZ" = Some (l, room) →
        messages room ≠ [] →
        snd (generate_summary socket "K3X9QZ"
               (fst (step (ModelAnswers 0 (ModelReplied (lit "Sorry, I cannot do that.")))
                          Scenario.summarizing))) =
          [SocketEmit socket (summary_generating "K3X9QZ");
           GenerateContent (messages room)]).
Proof.
  apply (gateway_failure_keeps_room Scenario.summarizing 0
           (mkPending "sockA" "K3X9QZ" 0)
           (ModelReplied (lit "Sorry, I cannot do that."))).
  - vm_compute. reflexivity.
  - right. exists (lit "Sorry, I cannot do that."). split; [reflexivity|].
    vm_compute. reflexivity.
Defined.

End SummaryAnswer.

(* ====================================================================== *)
(** ** [join_room] and [disconnecting] *)
(* ====================================================================== *)

Section Participants.

Local Open Scope string_scope.
Local Open Scope list_scope.
Local Open Scope Z_scope.

Implicit Types (s : Server) (roomCode socket username : string)
         (l : nat) (room : Room) (us : list User).

(** C10.  On an existing room, [join_room] succeeds for every socket and
    every user name, however many participants the room already has: the
    participant is appended to the room's users, the socket is
    subscribed to the room and the arrival is broadcast; no error is
    emitted.  An error can therefore only come from an absent room. *)
Theorem join_room_always_succeeds s socket roomCode username now l room :
  room_at s roomCode = Some (l, room) →
  join_room socket roomCode username now s =
    (set_room l (mkRoom (users room ++ [mkUser socket username])
                        (messages room) now (createdAt room)) s,
     [SocketJoin socket roomCode; RoomEmit roomCode (user_joined username)])
  ∧ room_at (fst (join_room socket roomCode username now s)) roomCode =
      Some (l, mkRoom (users room ++ [mkUser socket username])
                      (messages room) now (createdAt room))
  ∧ (∀ sk e, SocketEmit sk (error e) ∉ snd (join_room socket roomCode username now s)).
Proof.
  intros Hroom.
  assert (join_room socket roomCode username now s =
          (set_room l (mkRoom (users room ++ [mkUser socket username])
                              (messages room) now (createdAt room)) s,
           [SocketJoin socket roomCode; RoomEmit roomCode (user_joined username)]))
    as Heq by (unfold join_room; by rewrite Hroom).
  rewrite Heq. simpl. split; [done|]. split; [by eapply room_at_set_room|].
  intros sk e Hin.
  apply elem_of_cons in Hin as [?|Hin]; [done|].
  apply elem_of_cons in Hin as [?|Hin]; [done|].
  by apply elem_of_nil in Hin.
Qed.

Lemma join_room_always_succeeds_witness :
  join_room "sockC" "K3X9QZ" "Carol" 6000 Scenario.chatting =
    (set_room 0 (mkRoom ([mkUser "sockA" "Alice"; mkUser "sockB" "Bob"]
                           ++ [mkUser "sockC" "Carol"])
                        [mkMessage "Alice" (lit "hi") 4000;
                         mkMessage "Bob" (lit "hello") 5000]
                        6000 1000) Scenario.chatting,
     [SocketJoin "sockC" "K3X9QZ"; RoomEmit "K3X9QZ" (user_joined "Carol")])
  ∧ room_at (fst (join_room "sockC" "K3X9QZ" "Carol" 6000 Scenario.chatting)) "K3X9QZ" =
      Some (0%nat,
            mkRoom ([mkUser "sockA" "Alice"; mkUser "sockB" "Bob"]
                      ++ [mkUser "sockC" "Carol"])
                   [mkMessage "Alice" (lit "hi") 4000;
                    mkMessage "Bob" (lit "hello") 5000]
                   6000 1000)
  ∧ (∀ sk e, SocketEmit sk (error e)
             ∉ snd (join_room "sockC" "K3X9QZ" "Carol" 6000 Scenario.chatting)).
Proof.
  apply (join_room_always_succeeds Scenario.chatting "sockC" "K3X9QZ" "Carol" 6000
           0%nat
           (mkRoom [mkUser "sockA" "Alice"; mkUser "sockB" "Bob"]
                   [mkMessage "Alice" (lit "hi") 4000;
                    mkMessage "Bob" (lit "hello") 5000]
                   5001 1000)).
  vm_compute. reflexivity.
Defined.

(** The only error of [join_room] is the one for an absent room. *)
Lemma join_room_error_only_absent s socket roomCode username now sk e :
  well_formed s →
  SocketEmit sk (error e) ∈ snd (join_room socket roomCode username now s) →
  room_exists roomCode s = false ∧ sk = socket ∧ e = "Room does not exist".
Proof.
  intros Hwf. unfold join_room.
  destruct (room_at s roomCode) as [[l room]|] eqn:Hroom; simpl; intros Hin.
  - apply elem_of_cons in Hin as [?|Hin]; [done|].
    apply elem_of_cons in Hin as [?|Hin]; [done|].
    by apply elem_of_nil in Hin.
  - apply list_elem_of_singleton in Hin. injection Hin as -> ->.
    split; [by apply well_formed_room_at_None | done].
Qed.

(** The entries of a socket and the others make up the whole list. *)
Lemma length_filter_split socket us :
  length us =
    (length (filter (fun u => user_id u ≠ socket) us)
     + length (filter (fun u => user_id u = socket) us))%nat.
Proof.
  induction us as [|u us IH]; [done|].
  rewrite !filter_cons. destruct (decide (user_id u = socket)) as [Heq|Hne].
  - rewrite decide_False by (by intros ?). simpl. lia.
  - rewrite decide_True by done. simpl. lia.
Qed.

(** Filtering out a socket twice is filtering it out once. *)
Lemma filter_socket_twice socket us :
  filter (fun u => user_id u ≠ socket) (filter (fun u => user_id u ≠ socket) us) =
  filter (fun u => user_id u ≠ socket) us.
Proof.
  induction us as [|u us IH]; [done|].
  rewrite filter_cons. destruct (decide (user_id u ≠ socket)) as [Hne|Heq].
  - rewrite filter_cons_True by done. by rewrite IH.
  - done.
Qed.

(** One iteration of [disconnecting] seen from a room of the table: its
    users are filtered when the iteration is about this room, and are
    left alone or filtered otherwise; its messages are kept. *)
Lemma leave_room_room_at s socket roomCode' now roomCode l room :
  room_at s roomCode = Some (l, room) →
  ∃ room',
    room_at (fst (leave_room socket roomCode' now s)) roomCode = Some (l, room')
    ∧ messages room' = messages room
    ∧ (users room' = users room
       ∨ users room' = filter (fun u => user_id u ≠ socket) (users room))
    ∧ (roomCode' = roomCode →
       users room' = filter (fun u => user_id u ≠ socket) (users room)
       ∧ lastActivity room' = now).
Proof.
  intros Hroom. unfold leave_room.
  destruct (room_at s roomCode') as [[l' room0]|] eqn:Hroom'; simpl.
  - destruct (decide (l' = l)) as [->|Hne].
    + apply room_at_Some in Hroom as [Hc Hh]. apply room_at_Some in Hroom' as [Hc' Hh'].
      assert (room0 = room) as -> by congruence.
      eexists. split; [apply room_at_Some; simpl; split; [done|apply lookup_insert_eq]|].
      simpl. eauto.
    + exists room. split.
      * apply room_at_Some in Hroom as [Hc Hh]. apply room_at_Some. simpl.
        split; [done|]. by rewrite lookup_insert_ne.
      * split; [done|]. split; [by left|]. intros ->. congruence.
  - exists room. split; [done|]. split; [done|]. split; [by left|].
    intros ->. congruence.
Qed.

Lemma disconnecting_room_at socket socket_rooms :
  ∀ s roomCode l room,
    room_at s roomCode = Some (l, room) →
    ∃ room',
      room_at (fst (disconnecting socket socket_rooms s)) roomCode = Some (l, room')
      ∧ messages room' = messages room
      ∧ (users room' = users room
         ∨ users room' = filter (fun u => user_id u ≠ socket) (users room))
      ∧ (roomCode ∈ socket_rooms.*1 →
         users room' = filter (fun u => user_id u ≠ socket) (users room)).
Proof.
  induction socket_rooms as [|[c now] more IH]; intros s roomCode l room Hroom.
  - exists room. simpl. split; [done|]. split; [done|]. split; [by left|].
    intros Hin. by apply elem_of_nil in Hin.
  - simpl.
    destruct (leave_room_room_at s socket c now roomCode l room Hroom)
      as (room1 & Hroom1 & Hm1 & Hu1 & Hhit1).
    destruct (leave_room socket c now s) as [s1 out1]. simpl in Hroom1.
    destruct (IH s1 roomCode l room1 Hroom1) as (room2 & Hroom2 & Hm2 & Hu2 & Hhit2).
    destruct (disconnecting socket more s1) as [s2 out2]. simpl in *.
    exists room2. split; [done|]. split; [congruence|].
    assert (users room2 = users room
            ∨ users room2 = filter (fun u => user_id u ≠ socket) (users room)) as Hu.
    { destruct Hu1 as [Hu1|Hu1], Hu2 as [Hu2|Hu2]; rewrite Hu2, Hu1;
        rewrite ?filter_socket_twice; auto. }
    split; [done|]. intros Hin.
    apply elem_of_cons in Hin as [->|Hin].
    + destruct (Hhit1 eq_refl) as [Hf _].
      destruct Hu2 as [Hu2|Hu2]; rewrite Hu2, Hf; by rewrite ?filter_socket_twice.
    + specialize (Hhit2 Hin). rewrite Hhit2.
      destruct Hu1 as [Hu1|Hu1]; rewrite Hu1; by rewrite ?filter_socket_twice.
Qed.

(** C8, as stated, fails: a socket that has emitted [join_room] twice
    has two entries in the room (nothing in [join_room] prevents it), and
    its disconnection removes both. *)
Lemma disconnect_removes_both_entries :
  room_at Scenario.joined_twice "K3X9QZ" =
    Some (0%nat, mkRoom [mkUser "sockA" "Alice"; mkUser "sockA" "Alice";
                         mkUser "sockB" "Bob"] [] 3000 1000)
  ∧ room_at (fst (disconnecting "sockA" [("sockA", 7000); ("K3X9QZ", 7001)]
                                Scenario.joined_twice)) "K3X9QZ" =
      Some (0%nat, mkRoom [mkUser "sockB" "Bob"] [] 7001 1000).
Proof. split; vm_compute; reflexivity. Qed.

(** C8, as amended.  A disconnect call removes from each room it visits
    every participant entry whose connection identifier is the one of the
    socket, and keeps the other entries in their order: the number of
    entries removed is the number of entries the socket had in the room,
    so at most one is removed when the socket had joined the room at
    most once. *)
Theorem disconnecting_removes_all_entries s socket socket_rooms roomCode l room :
  room_at s roomCode = Some (l, room) →
  roomCode ∈ socket_rooms.*1 →
  ∃ room',
    room_at (fst (disconnecting socket socket_rooms s)) roomCode = Some (l, room')
    ∧ (∀ u, u ∈ users room' ↔ u ∈ users room ∧ user_id u ≠ socket)
    ∧ sublist (users room') (users room)
    ∧ length (users room) =
        (length (users room')
         + length (filter (fun u => user_id u = socket) (users room)))%nat
    ∧ ((length (filter (fun u => user_id u = socket) (users room)) ≤ 1)%nat →
       (length (users room) ≤ length (users room') + 1)%nat).
Proof.
  intros Hroom Hin.
  destruct (disconnecting_room_at socket socket_rooms s roomCode l room Hroom)
    as (room' & Hroom' & _ & _ & Hhit).
  specialize (Hhit Hin).
  pose proof (length_filter_split socket (users room)) as Hlen.
  exists room'. rewrite Hhit.
  split; [done|]. split.
  { intros u. rewrite list_elem_of_filter. tauto. }
  split; [apply sublist_filter|]. split; [done|]. lia.
Qed.

Lemma disconnecting_removes_all_entries_witness :
  ∃ room',
    room_at (fst (disconnecting "sockA" [("sockA", 7000); ("K3X9QZ", 7001)]
                                Scenario.chatting)) "K3X9QZ" = Some (0%nat, room')
    ∧ (∀ u, u ∈ users room' ↔
            u ∈ [mkUser "sockA" "Alice"; mkUser "sockB" "Bob"] ∧ user_id u ≠ "sockA")
    ∧ sublist (users room') [mkUser "sockA" "Alice"; mkUser "sockB" "Bob"]
    ∧ length [mkUser "sockA" "Alice"; mkUser "sockB" "Bob"] =
        (length (users room')
         + length (filter (fun u => user_id u = "sockA")
                          [mkUser "sockA" "Alice"; mkUser "sockB" "Bob"]))%nat
    ∧ ((length (filter (fun u => user_id u = "sockA")
                       [mkUser "sockA" "Alice"; mkUser "sockB" "Bob"]) ≤ 1)%nat →
       (length [mkUser "sockA" "Alice"; mkUser "sockB" "Bob"]
        ≤ length (users room') + 1)%nat).
Proof.
  apply (disconnecting_removes_all_entries Scenario.chatting "sockA"
           [("sockA", 7000); ("K3X9QZ", 7001)] "K3X9QZ" 0%nat
           (mkRoom [mkUser "sockA" "Alice"; mkUser "sockB" "Bob"]
                   [mkMessage "Alice" (lit "hi") 4000;
                    mkMessage "Bob" (lit "hello") 5000]
                   5001 1000)).
  - vm_compute. reflexivity.
  - simpl. apply elem_of_cons. right. apply elem_of_cons. by left.
Defined.

End Participants.

(* ====================================================================== *)
(** ** The inactivity reaper *)
(* ====================================================================== *)

Section Reaper.

Local Open Scope string_scope.
Local Open Scope list_scope.
Local Open Scope Z_scope.

Implicit Types (s : Server) (roomCode : string) (l : nat) (room : Room)
         (codes : list string).

Lemma rooms_cleanupRoom roomCode s :
  rooms (cleanupRoom roomCode s) = delete roomCode (rooms s).
Proof.
  unfold cleanupRoom. destruct (rooms s !! roomCode) eqn:Hc; [done|].
  by rewrite delete_id.
Qed.

Lemma heap_cleanupRoom roomCode s : heap (cleanupRoom roomCode s) = heap s.
Proof. unfold cleanupRoom. by destruct (rooms s !! roomCode). Qed.

(** Deleting a list of codes: the heap is untouched, and a code is in the
    table afterwards when it was there and is not in the list. *)
Lemma cleanup_all_heap codes s :
  heap (foldl (fun s' roomCode => cleanupRoom roomCode s') s codes) = heap s.
Proof.
  revert s. induction codes as [|c codes IH]; intros s; simpl; [done|].
  by rewrite IH, heap_cleanupRoom.
Qed.

Lemma cleanup_all_lookup codes s roomCode :
  rooms (foldl (fun s' c => cleanupRoom c s') s codes) !! roomCode =
    if decide (roomCode ∈ codes) then None else rooms s !! roomCode.
Proof.
  revert s. induction codes as [|c codes IH]; intros s; cbn [foldl].
  - rewrite decide_False; [done|]. apply not_elem_of_nil.
  - rewrite IH, rooms_cleanupRoom.
    destruct (decide (roomCode ∈ codes)) as [Hin|Hnin].
    + rewrite decide_True; [done|]. by apply elem_of_cons; right.
    + destruct (decide (c = roomCode)) as [->|Hne].
      * rewrite lookup_delete_eq. rewrite decide_True; [done|]. by apply elem_of_cons; left.
      * rewrite lookup_delete_ne by done.
        rewrite decide_False; [done|]. intros [?|?]%elem_of_cons; congruence.
Qed.

(** Deleting distinct codes that are in the table shrinks it by their
    number. *)
Lemma cleanup_all_size codes s :
  NoDup codes →
  (∀ c, c ∈ codes → is_Some (rooms s !! c)) →
  (size (rooms (foldl (fun s' c => cleanupRoom c s') s codes)) + length codes)%nat =
    size (rooms s).
Proof.
  revert s. induction codes as [|c codes IH]; intros s Hnd Hin; simpl; [lia|].
  apply NoDup_cons in Hnd as [Hc Hnd].
  assert (is_Some (rooms s !! c)) as Hpresent
    by (apply Hin; by apply elem_of_cons; left).
  assert (size (rooms s) ≠ 0%nat) as Hpos.
  { intros Hz. apply map_size_empty_inv in Hz.
    destruct Hpresent as [x Hx]. rewrite Hz in Hx. by rewrite lookup_empty in Hx. }
  assert (size (rooms (cleanupRoom c s)) = pred (size (rooms s))) as Hsize
    by (rewrite rooms_cleanupRoom; by apply map_size_delete_Some).
  rewrite Nat.add_succ_r, (IH (cleanupRoom c s) Hnd); [lia|].
  intros c' Hc'. rewrite rooms_cleanupRoom.
  rewrite lookup_delete_ne by (intros ->; done).
  apply Hin. by apply elem_of_cons; right.
Qed.

(** The codes the loop collects: those of the rooms idle for longer than
    the timeout. *)
Lemma elem_of_expiredRooms now s roomCode :
  roomCode ∈ expiredRooms now s ↔
  ∃ l room, room_at s roomCode = Some (l, room)
            ∧ ROOM_INACTIVITY_TIMEOUT < now - lastActivity room.
Proof.
  unfold expiredRooms. rewrite list_elem_of_filter. unfold is_expired. split.
  - intros [Hexp _].
    destruct (room_at s roomCode) as [[l room]|]; [|done].
    exists l, room. split; [done|]. by apply Z.ltb_lt.
  - intros (l & room & Hroom & Hidle). rewrite Hroom. split; [by apply Z.ltb_lt|].
    apply room_at_Some in Hroom as [Hc _].
    apply list_elem_of_fmap. exists (roomCode, l). split; [done|].
    by apply elem_of_map_to_list.
Qed.

Lemma NoDup_expiredRooms now s : NoDup (expiredRooms now s).
Proof. unfold expiredRooms. apply NoDup_filter, NoDup_fst_map_to_list. Qed.

(** C9.  One pass of the reaper removes from the table exactly the rooms
    whose idle time [now - lastActivity] exceeds the inactivity timeout
    (30 minutes): such a room is no longer found, a room within the
    timeout is found unchanged, no code appears that was not there, and
    the number returned is the number of rooms removed; the interval
    callback logs it when it is positive. *)
Theorem reaper_removes_exactly_inactive now s :
  (∀ roomCode l room,
      room_at s roomCode = Some (l, room) →
      (ROOM_INACTIVITY_TIMEOUT < now - lastActivity room →
       room_at (fst (expireInactiveRooms now s)) roomCode = None
       ∧ room_exists roomCode (fst (expireInactiveRooms now s)) = false)
      ∧ (now - lastActivity room ≤ ROOM_INACTIVITY_TIMEOUT →
         room_at (fst (expireInactiveRooms now s)) roomCode = Some (l, room)))
  ∧ (∀ roomCode,
        room_exists roomCode s = false →
        room_exists roomCode (fst (expireInactiveRooms now s)) = false)
  ∧ snd (expireInactiveRooms now s) =
      Z.of_nat (size (rooms s)) - Z.of_nat (size (rooms (fst (expireInactiveRooms now s))))
  ∧ cleanup_interval now s =
      (fst (expireInactiveRooms now s),
       if 0 <? snd (expireInactiveRooms now s)
       then [ConsoleExpired (snd (expireInactiveRooms now s))] else []).
Proof.
  unfold cleanup_interval, expireInactiveRooms. simpl.
  set (s' := foldl (fun s' c => cleanupRoom c s') s (expiredRooms now s)).
  assert (∀ c, rooms s' !! c =
               if decide (c ∈ expiredRooms now s) then None else rooms s !! c) as Hlookup
    by (intros c; apply cleanup_all_lookup).
  assert (heap s' = heap s) as Hheap by apply cleanup_all_heap.
  split; [|split; [|split]].
  - intros roomCode l room Hroom. split.
    + intros Hidle.
      assert (roomCode ∈ expiredRooms now s) as Hin
        by (apply elem_of_expiredRooms; eauto).
      unfold room_at, room_exists. rewrite Hlookup, decide_True by done. done.
    + intros Hidle.
      assert (roomCode ∉ expiredRooms now s) as Hnin.
      { intros (l' & room' & Hroom' & Hidle')%elem_of_expiredRooms.
        rewrite Hroom in Hroom'. injection Hroom' as <- <-. lia. }
      unfold room_at. rewrite Hlookup, decide_False, Hheap by done. done.
  - intros roomCode. unfold room_exists. rewrite Hlookup.
    destruct (decide (roomCode ∈ expiredRooms now s)); done.
  - pose proof (cleanup_all_size (expiredRooms now s) s (NoDup_expiredRooms now s)) as Hsize.
    fold s' in Hsize. rewrite <- Hsize; [lia|].
    intros c (l & room & Hroom & _)%elem_of_expiredRooms.
    apply room_at_Some in Hroom as [-> _]. by eexists.
  - done.
Qed.

Lemma reaper_removes_exactly_inactive_witness :
  room_at (fst (expireInactiveRooms 1805002 Scenario.chatting)) "K3X9QZ" = None
  ∧ room_exists "K3X9QZ" (fst (expireInactiveRooms 1805002 Scenario.chatting)) = false.
Proof.
  apply (proj1 (reaper_removes_exactly_inactive 1805002 Scenario.chatting) "K3X9QZ"
               0%nat
               (mkRoom [mkUser "sockA" "Alice"; mkUser "sockB" "Bob"]
                       [mkMessage "Alice" (lit "hi") 4000;
                        mkMessage "Bob" (lit "hello") 5000]
                       5001 1000)).
  - vm_compute. reflexivity.
  - vm_compute. reflexivity.
Defined.

End Reaper.

(* ====================================================================== *)
(** ** Activity tracking *)
(* ====================================================================== *)

Section Activity.

Local Open Scope string_scope.
Local Open Scope list_scope.
Local Open Scope Z_scope.

Implicit Types (s : Server) (roomCode socket username : string)
         (l : nat) (room : Room).

(** The request for a summary writes to no room. *)
Lemma generate_summary_same_table s socket roomCode :
  heap (fst (generate_summary socket roomCode s)) = heap s
  ∧ rooms (fst (generate_summary socket roomCode s)) = rooms s.
Proof.
  unfold generate_summary.
  destruct (room_at s roomCode) as [[l room]|]; [|done].
  destruct (messages room); [done|].
  by destruct (generateSummary_call roomCode s).
Qed.

(** Nor does the handling of the model's answer. *)
Lemma generate_summary_resume_same_table p o s :
  heap (fst (generate_summary_resume p o s)) = heap s
  ∧ rooms (fst (generate_summary_resume p o s)) = rooms s.
Proof. unfold generate_summary_resume. by destruct (generateSummary_return o). Qed.

(** C2, as stated, fails for summarize: the room was last active at
    5001; a summary is requested, the model answers and the summary is
    delivered, and [lastActivity] is still 5001.  A room whose summary was
    requested just before a pass of the reaper is removed by that pass
    like any idle room. *)
Lemma summarize_keeps_lastActivity :
  room_at Scenario.chatting "K3X9QZ" =
    Some (0%nat, mkRoom [mkUser "sockA" "Alice"; mkUser "sockB" "Bob"]
                        [mkMessage "Alice" (lit "hi") 4000;
                         mkMessage "Bob" (lit "hello") 5000]
                        5001 1000)
  ∧ gateway_calls (snd (generate_summary "sockA" "K3X9QZ" Scenario.chatting)) = 1%nat
  ∧ room_at (fst (run [GenerateSummary "sockA" "K3X9QZ";
                       ModelAnswers 0 (ModelReplied Scenario.fenced_reply)]
                      Scenario.chatting)) "K3X9QZ" =
      Some (0%nat, mkRoom [mkUser "sockA" "Alice"; mkUser "sockB" "Bob"]
                          [mkMessage "Alice" (lit "hi") 4000;
                           mkMessage "Bob" (lit "hello") 5000]
                          5001 1000)
  ∧ room_at (fst (run [GenerateSummary "sockA" "K3X9QZ"; CleanupInterval 1805002]
                      Scenario.chatting)) "K3X9QZ" = None.
Proof. repeat split; vm_compute; reflexivity. Qed.

(** C2, as amended.  On an existing room, every successful join, leave
    and send-message sets the room's [lastActivity] to the clock the
    handler reads for it; a summarize request (accepted or refused) and
    the handling of the model's answer leave the room, and so its
    [lastActivity], as they were. *)
Theorem mutations_update_lastActivity s roomCode l room :
  room_at s roomCode = Some (l, room) →
  (∀ socket username now,
      ∃ room', room_at (fst (join_room socket roomCode username now s)) roomCode =
                 Some (l, room')
               ∧ lastActivity room' = now)
  ∧ (∀ socket now,
        ∃ room', room_at (fst (leave_room socket roomCode now s)) roomCode =
                   Some (l, room')
                 ∧ lastActivity room' = now)
  ∧ (∀ socket username t now1 now2,
        validateMessage (PString t) = Valid →
        hasReachedMessageLimit roomCode s = false →
        ∃ room',
          room_at (fst (send_message socket roomCode username (PString t) now1 now2 s))
                  roomCode = Some (l, room')
          ∧ lastActivity room' = now2)
  ∧ (∀ socket,
        room_at (fst (generate_summary socket roomCode s)) roomCode = Some (l, room))
  ∧ (∀ p o,
        room_at (fst (generate_summary_resume p o s)) roomCode = Some (l, room)).
Proof.
  intros Hroom. split; [|split; [|split; [|split]]].
  - intros socket username now. unfold join_room. rewrite Hroom. simpl.
    eexists. split; [by eapply room_at_set_room | done].
  - intros socket now.
    destruct (leave_room_room_at s socket roomCode now roomCode l room Hroom)
      as (room' & Hroom' & _ & _ & Hhit).
    exists room'. split; [done|]. by destruct (Hhit eq_refl).
  - intros socket username t now1 now2 Hvalid Hlimit.
    rewrite (send_message_accepted _ _ _ _ _ _ _ _ _ Hroom Hvalid Hlimit). simpl.
    eexists. split; [by eapply room_at_set_room | done].
  - intros socket.
    destruct (generate_summary_same_table s socket roomCode) as [Hh Hr].
    by rewrite (room_at_same_table s).
  - intros p o.
    destruct (generate_summary_resume_same_table p o s) as [Hh Hr].
    by rewrite (room_at_same_table s).
Qed.

Lemma mutations_update_lastActivity_witness :
  (∀ socket username now,
      ∃ room', room_at (fst (join_room socket "K3X9QZ" username now Scenario.chatting))
                       "K3X9QZ" = Some (0%nat, room')
               ∧ lastActivity room' = now)
  ∧ (∀ socket now,
        ∃ room', room_at (fst (leave_room socket "K3X9QZ" now Scenario.chatting))
                         "K3X9QZ" = Some (0%nat, room')
                 ∧ lastActivity room' = now)
  ∧ (∀ socket username t now1 now2,
        validateMessage (PString t) = Valid →
        hasReachedMessageLimit "K3X9QZ" Scenario.chatting = false →
        ∃ room',
          room_at (fst (send_message socket "K3X9QZ" username (PString t) now1 now2
                                     Scenario.chatting))
                  "K3X9QZ" = Some (0%nat, room')
          ∧ lastActivity room' = now2)
  ∧ (∀ socket,
        room_at (fst (generate_summary socket "K3X9QZ" Scenario.chatting)) "K3X9QZ" =
          Some (0%nat, mkRoom [mkUser "sockA" "Alice"; mkUser "sockB" "Bob"]
                              [mkMessage "Alice" (lit "hi") 4000;
                               mkMessage "Bob" (lit "hello") 5000]
                              5001 1000))
  ∧ (∀ p o,
        room_at (fst (generate_summary_resume p o Scenario.chatting)) "K3X9QZ" =
          Some (0%nat, mkRoom [mkUser "sockA" "Alice"; mkUser "sockB" "Bob"]
                              [mkMessage "Alice" (lit "hi") 4000;
                               mkMessage "Bob" (lit "hello") 5000]
                              5001 1000)).
Proof.
  apply (mutations_update_lastActivity Scenario.chatting "K3X9QZ" 0%nat
           (mkRoom [mkUser "sockA" "Alice"; mkUser "sockB" "Bob"]
                   [mkMessage "Alice" (lit "hi") 4000;
                    mkMessage "Bob" (lit "hello") 5000]
                   5001 1000)).
  vm_compute. reflexivity.
Defined.

End Activity.

(* ====================================================================== *)
(** ** White space at the ends of a string *)
(* ====================================================================== *)

Section Trim.

Local Open Scope string_scope.
Local Open Scope list_scope.
Local Open Scope Z_scope.

Implicit Types (s t pre post : jstring) (c : N).

Lemma trim_start_spaces pre s :
  Forall (fun c => is_js_space c = true) pre → trim_start (pre ++ s) = trim_start s.
Proof.
  induction 1 as [|c pre Hc _ IH]; [done|]. simpl. by rewrite Hc.
Qed.

Lemma trim_start_nil s :
  trim_start s = [] ↔ Forall (fun c => is_js_space c = true) s.
Proof.
  induction s as [|c s IH]; simpl.
  - split; [by constructor | done].
  - destruct (is_js_space c) eqn:Hc.
    + rewrite IH. split; [by constructor | by inversion 1].
    + split; [done|]. inversion 1. congruence.
Qed.

Lemma trim_start_clean s :
  clean_head s → trim_start s = s.
Proof. destruct s as [|c s]; simpl; [done|]. by intros ->. Qed.

Lemma trim_start_clean_head s : clean_head (trim_start s).
Proof.
  induction s as [|c s IH]; simpl; [done|].
  destruct (is_js_space c) eqn:Hc; [done|]. simpl. done.
Qed.

(** What [trim_start] drops is white space. *)
Lemma trim_start_split s :
  ∃ pre, s = pre ++ trim_start s ∧ Forall (fun c => is_js_space c = true) pre.
Proof.
  induction s as [|c s (pre & Heq & Hpre)]; simpl.
  - by exists [].
  - destruct (is_js_space c) eqn:Hc.
    + exists (c :: pre). split; [simpl; congruence | by constructor].
    + by exists [].
Qed.

Lemma trim_start_length s : (length (trim_start s) ≤ length s)%nat.
Proof.
  destruct (trim_start_split s) as (pre & Heq & _).
  rewrite Heq at 2. rewrite length_app. lia.
Qed.

Lemma trim_end_spaces s post :
  Forall (fun c => is_js_space c = true) post → trim_end (s ++ post) = trim_end s.
Proof.
  intros Hpost. unfold trim_end. rewrite rev_app_distr.
  rewrite trim_start_spaces; [done|]. by apply Forall_rev.
Qed.

Lemma trim_end_clean s : clean_head (rev s) → trim_end s = s.
Proof.
  intros Hs. unfold trim_end. rewrite trim_start_clean by done. apply rev_involutive.
Qed.

(** White space around a text that has none at its ends is what [trim]
    removes. *)
Lemma trim_surrounded pre s post :
  Forall (fun c => is_js_space c = true) pre →
  Forall (fun c => is_js_space c = true) post →
  clean_head s → clean_head (rev s) →
  trim (pre ++ s ++ post) = s.
Proof.
  intros Hpre Hpost Hhead Hlast. unfold trim.
  rewrite trim_start_spaces by done.
  destruct s as [|c s'].
  - simpl. assert (trim_start post = []) as -> by (by apply trim_start_nil). done.
  - rewrite trim_start_clean by done.
    rewrite trim_end_spaces by done. by apply trim_end_clean.
Qed.

Lemma trim_length s : (length (trim s) ≤ length s)%nat.
Proof.
  unfold trim, trim_end. rewrite length_rev.
  etrans; [apply trim_start_length|]. rewrite length_rev. apply trim_start_length.
Qed.

(** The result of [trim] has no white space at either end. *)
Lemma trim_clean s : clean_head (trim s) ∧ clean_head (rev (trim s)).
Proof.
  unfold trim, trim_end. rewrite rev_involutive. split; [|apply trim_start_clean_head].
  pose proof (trim_start_clean_head s) as Ha.
  destruct (trim_start_split (rev (trim_start s))) as (pre & Heq & Hpre).
  set (y := trim_start (rev (trim_start s))) in *.
  assert (trim_start s = rev y ++ rev pre) as Hs.
  { rewrite <- (rev_involutive (trim_start s)), Heq. by rewrite rev_app_distr. }
  rewrite Hs in Ha. destruct (rev y) as [|c r]; [done|]. exact Ha.
Qed.

Lemma trim_idempotent s : trim (trim s) = trim s.
Proof.
  destruct (trim_clean s) as [Hhead Hlast].
  by rewrite <- (trim_surrounded [] (trim s) []) at 2; rewrite ?app_nil_r.
Qed.

(** [trim] leaves nothing exactly when the text is white space only. *)
Lemma trim_nil s : trim s = [] ↔ Forall (fun c => is_js_space c = true) s.
Proof.
  split.
  - unfold trim, trim_end. intros H.
    apply (f_equal (@rev N)) in H. rewrite rev_involutive in H. simpl in H.
    apply trim_start_nil in H.
    destruct (trim_start_split s) as (pre & Heq & Hpre).
    apply Forall_rev in H. rewrite rev_involutive in H.
    rewrite Heq. apply Forall_app. done.
  - intros H. unfold trim.
    assert (trim_start s = []) as -> by (by apply trim_start_nil). done.
Qed.

End Trim.

(* ====================================================================== *)
(** ** More on the validator and on [send_message] *)
(* ====================================================================== *)

Section Validator.

Local Open Scope string_scope.
Local Open Scope list_scope.
Local Open Scope Z_scope.

Implicit Types (s : Server) (t : jstring) (room : Room).

Lemma not_all_spaces t :
  ¬ Forall (fun c => is_js_space c = true) t ↔ ∃ c, c ∈ t ∧ is_js_space c = false.
Proof.
  rewrite <- Exists_Forall_neg by (intros c; destruct (is_js_space c); auto).
  rewrite Exists_exists. split; intros (c & Hin & Hc); exists c; split; try done.
  - by destruct (is_js_space c).
  - by rewrite Hc.
Qed.

(** X1.  The validator accepts a string exactly when it has a character
    that is not white space and its raw length is at most 5000.  A
    non-empty string of white space only is refused as empty, whatever its
    length; a string with content that is too long is refused for its
    length. *)
Theorem validateMessage_accepts_exactly t :
  (validateMessage (PString t) = Valid ↔
   (∃ c, c ∈ t ∧ is_js_space c = false) ∧ jlength t ≤ MAX_CHARACTERS_PER_MESSAGE)
  ∧ (t ≠ [] → Forall (fun c => is_js_space c = true) t →
     validateMessage (PString t) = Invalid "Message cannot be empty")
  ∧ ((∃ c, c ∈ t ∧ is_js_space c = false) →
     MAX_CHARACTERS_PER_MESSAGE < jlength t →
     validateMessage (PString t) =
       Invalid "Message exceeds maximum length of 5000 characters").
Proof.
  assert (0 < jlength (trim t) ↔ ∃ c, c ∈ t ∧ is_js_space c = false) as Hcontent.
  { rewrite <- not_all_spaces, <- trim_nil. unfold jlength.
    destruct (trim t) as [|c r]; cbn [length]; split; intros H;
      first [done | lia | by destruct H]. }
  split; [|split].
  - rewrite validateMessage_Valid. by rewrite Hcontent.
  - intros Hne Hsp. apply trim_nil in Hsp. unfold validateMessage.
    destruct t as [|c t']; [done|]. by rewrite Hsp.
  - intros Hc Hlong. apply Hcontent in Hc. unfold validateMessage.
    destruct t as [|c t']; [by vm_compute in Hc|].
    destruct (Z.eqb_spec (jlength (trim (c :: t'))) 0) as [H0|_]; [lia|].
    destruct (Z.ltb_spec MAX_CHARACTERS_PER_MESSAGE (jlength (c :: t'))); [done|lia].
Qed.


End Validator.

(* ====================================================================== *)
(** ** Fenced replies *)
(* ====================================================================== *)

Section Fences.

Local Open Scope string_scope.
Local Open Scope list_scope.
Local Open Scope Z_scope.

Implicit Types (body x : jstring).

Lemma strip_prefix_app (p q x : jstring) :
  strip_prefix (p ++ q) x =
    match strip_prefix p x with
    | Some r => strip_prefix q r
    | None => None
    end.
Proof.
  revert x. induction p as [|a p IH]; intros x; simpl; [done|].
  destruct x as [|b x']; [by destruct q|]. by destruct (a =? b)%N.
Qed.

(** The closing fence goes with the white space before it. *)
Lemma strip_closing_fence_fenced x (ws2 : jstring) :
  Forall (fun c => is_js_space c = true) ws2 →
  clean_head (rev x) →
  strip_closing_fence (x ++ ws2 ++ lit "```") = x.
Proof.
  intros Hws Hlast. unfold strip_closing_fence.
  rewrite !rev_app_distr. simpl.
  rewrite trim_start_spaces by (by apply Forall_rev).
  rewrite trim_start_clean by done. apply rev_involutive.
Qed.

(** After the opening fence: the white space goes, then the closing
    fence. *)
Lemma strip_body (ws1 : jstring) body (ws2 : jstring) :
  Forall (fun c => is_js_space c = true) ws1 →
  Forall (fun c => is_js_space c = true) ws2 →
  clean_head body → clean_head (rev body) →
  strip_closing_fence (trim_start (ws1 ++ body ++ ws2 ++ lit "```")) = body.
Proof.
  intros Hws1 Hws2 Hhead Hlast. rewrite trim_start_spaces by done.
  destruct body as [|c body'].
  - simpl. rewrite trim_start_spaces by done. reflexivity.
  - rewrite trim_start_clean by done. by apply strip_closing_fence_fenced.
Qed.

(** X3.  A reply wrapped in a Markdown fence, with or without the [json]
    tag, with any white space around the fence and around the body, is
    cleaned to its body; so the gateway returns for the wrapped reply what
    it returns for the body alone. *)
Theorem clean_reply_fenced tag (outer1 ws1 : jstring) body (ws2 outer2 : jstring) :
  Forall (fun c => is_js_space c = true) outer1 →
  Forall (fun c => is_js_space c = true) outer2 →
  Forall (fun c => is_js_space c = true) ws1 →
  Forall (fun c => is_js_space c = true) ws2 →
  clean_head body → clean_head (rev body) →
  (tag = "json"
   ∨ tag = "" ∧ strip_prefix (lit "json") (ws1 ++ body ++ ws2 ++ lit "```") = None) →
  clean_reply (outer1 ++ fenced tag ws1 body ws2 ++ outer2) = body
  ∧ (strip_prefix (lit "```") body = None →
     generateSummary_return (ModelReplied (outer1 ++ fenced tag ws1 body ws2 ++ outer2)) =
     generateSummary_return (ModelReplied body)).
Proof.
  intros Ho1 Ho2 Hws1 Hws2 Hhead Hlast Htag.
  assert (clean_reply (outer1 ++ fenced tag ws1 body ws2 ++ outer2) = body) as Hclean.
  { unfold clean_reply.
    rewrite trim_surrounded; try done.
    - destruct Htag as [->|[-> Hnot]].
      + change (strip_prefix (lit "```json") (fenced "json" ws1 body ws2))
          with (Some (ws1 ++ body ++ ws2 ++ lit "```")).
        by apply strip_body.
      + change (strip_prefix (lit "```json") (fenced "" ws1 body ws2))
          with (strip_prefix (lit "json") (ws1 ++ body ++ ws2 ++ lit "```")).
        rewrite Hnot.
        change (strip_prefix (lit "```") (fenced "" ws1 body ws2))
          with (Some (ws1 ++ body ++ ws2 ++ lit "```")).
        by apply strip_body.
    - unfold fenced. rewrite !rev_app_distr. done. }
  split; [done|]. intros Hplain.
  assert (clean_reply body = body) as Hbody.
  { pose proof (trim_surrounded [] body [] (Forall_nil_2 _) (Forall_nil_2 _) Hhead Hlast)
      as Htrim.
    cbn [app] in Htrim. rewrite app_nil_r in Htrim.
    unfold clean_reply. rewrite Htrim.
    change (lit "```json") with (lit "```" ++ lit "json").
    by rewrite strip_prefix_app, Hplain. }
  unfold generateSummary_return. by rewrite Hclean, Hbody.
Qed.

End Fences.

(* ====================================================================== *)
(** ** What every turn of the event loop keeps *)
(* ====================================================================== *)

Section Turns.

Local Open Scope string_scope.
Local Open Scope list_scope.
Local Open Scope Z_scope.

Implicit Types (s : Server) (roomCode socket username : string)
         (l : nat) (room : Room) (i : input) (inputs : list input).

Lemma cell_grows_refl o : cell_grows o o.
Proof. destruct o as [room|]; simpl; auto. Qed.

(** A cell whose room keeps its messages and creation time. *)
Lemma cell_grows_same room room' :
  messages room' = messages room → createdAt room' = createdAt room →
  cell_grows (Some room) (Some room').
Proof. intros Hm Hc. simpl. auto. Qed.

Lemma heap_set_room_cell s l0 room0 room' l :
  heap s !! l0 = Some room0 →
  cell_grows (Some room0) (Some room') →
  cell_grows (heap s !! l) (heap (set_room l0 room' s) !! l).
Proof.
  intros H0 Hgrow. simpl. destruct (decide (l0 = l)) as [<-|Hne].
  - by rewrite lookup_insert_eq, H0.
  - rewrite lookup_insert_ne by done. apply cell_grows_refl.
Qed.

Lemma leave_room_cell s socket roomCode now l :
  match heap s !! l, heap (fst (leave_room socket roomCode now s)) !! l with
  | None, None => True
  | Some room, Some room' =>
    messages room' = messages room ∧ createdAt room' = createdAt room
  | _, _ => False
  end.
Proof.
  unfold leave_room.
  destruct (room_at s roomCode) as [[l0 room0]|] eqn:Hroom; simpl.
  - apply room_at_Some in Hroom as [_ Hh].
    destruct (decide (l0 = l)) as [<-|Hne].
    + by rewrite lookup_insert_eq, Hh.
    + rewrite lookup_insert_ne by done. by destruct (heap s !! l).
  - by destruct (heap s !! l).
Qed.

Lemma disconnecting_cell socket socket_rooms :
  ∀ s l,
    match heap s !! l, heap (fst (disconnecting socket socket_rooms s)) !! l with
    | None, None => True
    | Some room, Some room' =>
      messages room' = messages room ∧ createdAt room' = createdAt room
    | _, _ => False
    end.
Proof.
  induction socket_rooms as [|[c now] more IH]; intros s l.
  - simpl. by destruct (heap s !! l).
  - simpl. pose proof (leave_room_cell s socket c now l) as H1.
    destruct (leave_room socket c now s) as [s1 out1]. simpl in H1.
    specialize (IH s1 l).
    destruct (disconnecting socket more s1) as [s2 out2]. simpl in *.
    destruct (heap s !! l), (heap s1 !! l), (heap s2 !! l); try done.
    destruct H1 as [? ?], IH as [? ?]. split; congruence.
Qed.

(** Every turn of the event loop lets every cell of the heap grow. *)
Lemma step_heap_cell i s l :
  cell_grows (heap s !! l) (heap (fst (step i s)) !! l).
Proof.
  destruct i as [g n1 n2|sk c u n|sk c u m n1 n2|sk c|k o|k|sk sr|n]; simpl.
  - unfold create_room. destruct (first_free_code g s) as [c|]; simpl;
      [|apply cell_grows_refl].
    destruct (decide (fresh (dom (heap s)) = l)) as [<-|Hne].
    + rewrite lookup_insert_eq.
      assert (heap s !! fresh (dom (heap s)) = None) as ->; [|done].
      apply not_elem_of_dom, is_fresh.
    + rewrite lookup_insert_ne by done. apply cell_grows_refl.
  - unfold join_room.
    destruct (room_at s c) as [[l0 room0]|] eqn:Hroom; simpl; [|apply cell_grows_refl].
    apply room_at_Some in Hroom as [_ Hh].
    eapply (heap_set_room_cell s l0 room0); [done|]. by apply cell_grows_same.
  - unfold send_message.
    destruct (room_at s c) as [[l0 room0]|] eqn:Hroom; simpl; [|apply cell_grows_refl].
    destruct (validateMessage m) eqn:Hvalid; simpl; [|apply cell_grows_refl].
    destruct (hasReachedMessageLimit c s) eqn:Hlimit; simpl; [apply cell_grows_refl|].
    destruct m as [t|]; [|done].
    pose proof Hroom as [_ Hh]%room_at_Some.
    eapply (heap_set_room_cell s l0 room0); [done|].
    simpl. split; [done|]. right. exists u, t, n1.
    split; [done|]. split; [done|]. by eapply hasReachedMessageLimit_false.
  - destruct (generate_summary_same_table s sk c) as [-> _]. apply cell_grows_refl.
  - destruct (pending s !! k) as [p|]; [|apply cell_grows_refl].
    destruct (generate_summary_resume_same_table p o
                (mkServer (heap s) (rooms s) (delete k (pending s)) (timers s)))
      as [-> _].
    apply cell_grows_refl.
  - destruct (timers s !! k) as [c|]; [|apply cell_grows_refl].
    unfold cleanup_timeout. simpl. rewrite heap_cleanupRoom. apply cell_grows_refl.
  - pose proof (disconnecting_cell sk sr s l) as H.
    destruct (heap s !! l) as [room|], (heap (fst (disconnecting sk sr s)) !! l)
      as [room'|]; try done.
    destruct H as [Hm Hc]. by apply cell_grows_same.
  - unfold cleanup_interval, expireInactiveRooms. simpl.
    rewrite cleanup_all_heap. apply cell_grows_refl.
Qed.

(** [run] is one [step] after the other. *)
Lemma run_cons i inputs s :
  run (i :: inputs) s =
    (fst (run inputs (fst (step i s))),
     snd (step i s) ++ snd (run inputs (fst (step i s)))).
Proof. simpl. destruct (step i s) as [s1 out1]. simpl. by destruct (run inputs s1). Qed.

(** A property of the state that every turn keeps is kept by every run. *)
Lemma run_invariant (P : Server → Prop) :
  (∀ i s, P s → P (fst (step i s))) →
  ∀ inputs s, P s → P (fst (run inputs s)).
Proof.
  intros Hstep. induction inputs as [|i more IH]; intros s HP; [done|].
  rewrite run_cons. simpl. apply IH, Hstep, HP.
Qed.

(** A property of every effect of every turn holds of every effect of a
    run. *)
Lemma run_effects (P : effect → Prop) :
  (∀ i s, Forall P (snd (step i s))) →
  ∀ inputs s, Forall P (snd (run inputs s)).
Proof.
  intros Hstep. induction inputs as [|i more IH]; intros s; [by constructor|].
  rewrite run_cons. simpl. apply Forall_app. split; [apply Hstep | apply IH].
Qed.

Lemma message_count_bounded_step i s :
  message_count_bounded s → message_count_bounded (fst (step i s)).
Proof.
  intros Hinv l room' Hl. pose proof (step_heap_cell i s l) as Hgrow.
  rewrite Hl in Hgrow. destruct (heap s !! l) as [room|] eqn:Hold; simpl in Hgrow.
  - specialize (Hinv l room Hold).
    destruct Hgrow as [_ [->|(u & t & n & -> & _ & Hlen)]]; [done|].
    rewrite length_app. simpl. lia.
  - destruct Hgrow as [_ ->]. by vm_compute.
Qed.

Lemma message_ok_trimmed username t now :
  validateMessage (PString t) = Valid → message_ok (mkMessage username (trim t) now).
Proof.
  intros [Hpos Hlen]%validateMessage_Valid. unfold message_ok. simpl.
  split; [|split].
  - intros Hnil. rewrite Hnil in Hpos. by vm_compute in Hpos.
  - apply trim_idempotent.
  - pose proof (trim_length t). unfold jlength in *. lia.
Qed.

Lemma messages_ok_step i s : messages_ok s → messages_ok (fst (step i s)).
Proof.
  intros Hinv l room' Hl. pose proof (step_heap_cell i s l) as Hgrow.
  rewrite Hl in Hgrow. destruct (heap s !! l) as [room|] eqn:Hold; simpl in Hgrow.
  - specialize (Hinv l room Hold).
    destruct Hgrow as [_ [->|(u & t & n & -> & Hvalid & _)]]; [done|].
    apply Forall_app. split; [done|]. constructor; [|done].
    by apply message_ok_trimmed.
  - destruct Hgrow as [_ ->]. constructor.
Qed.

(** X4.  In every state the server reaches from its initial, empty state,
    every room of the table holds at most 1000 messages. *)
Theorem message_limit_never_exceeded inputs roomCode l room :
  room_at (fst (run inputs empty_server)) roomCode = Some (l, room) →
  Z.of_nat (length (messages room)) ≤ MAX_MESSAGES_PER_ROOM.
Proof.
  intros [_ Hh]%room_at_Some.
  assert (message_count_bounded (fst (run inputs empty_server))) as Hinv.
  { apply run_invariant; [apply message_count_bounded_step|].
    intros l' room'. simpl. by rewrite lookup_empty. }
  by eapply Hinv.
Qed.

(** X5.  In every state the server reaches from its initial, empty state,
    every stored message text is non-empty, has no white space at either
    end (it is its own trim) and is at most 5000 long. *)
Theorem stored_messages_trimmed inputs roomCode l room m :
  room_at (fst (run inputs empty_server)) roomCode = Some (l, room) →
  m ∈ messages room →
  msg_message m ≠ []
  ∧ trim (msg_message m) = msg_message m
  ∧ jlength (msg_message m) ≤ MAX_CHARACTERS_PER_MESSAGE.
Proof.
  intros [_ Hh]%room_at_Some Hin.
  assert (messages_ok (fst (run inputs empty_server))) as Hinv.
  { apply run_invariant; [apply messages_ok_step|].
    intros l' room'. simpl. by rewrite lookup_empty. }
  specialize (Hinv l room Hh). rewrite Forall_forall in Hinv. by apply Hinv.
Qed.

(** X6.  Stored messages are never changed, reordered or removed: over
    any run of the event loop, a room object that exists keeps existing,
    keeps its creation time, and its former messages are a prefix of its
    later ones. *)
Theorem messages_append_only inputs s l room :
  heap s !! l = Some room →
  ∃ room',
    heap (fst (run inputs s)) !! l = Some room'
    ∧ messages room `prefix_of` messages room'
    ∧ createdAt room' = createdAt room.
Proof.
  revert s room. induction inputs as [|i more IH]; intros s room Hl.
  - exists room. done.
  - rewrite run_cons. simpl.
    pose proof (step_heap_cell i s l) as Hgrow. rewrite Hl in Hgrow.
    destruct (heap (fst (step i s)) !! l) as [room1|] eqn:Hl1; [|done].
    destruct (IH _ _ Hl1) as (room' & Hl' & Hpre & Hc).
    exists room'. split; [done|]. simpl in Hgrow. destruct Hgrow as [Hc1 Hm1].
    split; [|congruence].
    etrans; [|exact Hpre].
    destruct Hm1 as [->|(u & t & n & -> & _)]; [done|]. by apply prefix_app_r.
Qed.

End Turns.

(* ====================================================================== *)
(** ** What the server never does *)
(* ====================================================================== *)

Section Never.

Local Open Scope string_scope.
Local Open Scope list_scope.
Local Open Scope Z_scope.

Implicit Types (s : Server) (roomCode socket username : string)
         (l : nat) (room : Room) (i : input) (inputs : list input).

Lemma disconnecting_effects socket socket_rooms :
  ∀ s, Forall (fun e => ∃ roomCode, e = RoomEmit roomCode (user_left socket))
              (snd (disconnecting socket socket_rooms s)).
Proof.
  induction socket_rooms as [|[c now] more IH]; intros s; simpl; [by constructor|].
  assert (Forall (fun e => ∃ roomCode, e = RoomEmit roomCode (user_left socket))
                 (snd (leave_room socket c now s))) as H1.
  { unfold leave_room. destruct (room_at s c) as [[l room]|]; simpl; [|by constructor].
    constructor; [by eexists | by constructor]. }
  destruct (leave_room socket c now s) as [s1 out1]. simpl in H1.
  specialize (IH s1). destruct (disconnecting socket more s1) as [s2 out2].
  simpl in *. by apply Forall_app.
Qed.

(** The effects of a turn: no error is broadcast to a room, and the model
    is not called on an empty transcript. *)
Lemma step_effects_sound i s :
  Forall (fun e => match e with
                   | RoomEmit _ (error _) => False
                   | GenerateContent [] => False
                   | _ => True
                   end) (snd (step i s)).
Proof.
  destruct i as [g n1 n2|sk c u n|sk c u m n1 n2|sk c|k o|k|sk sr|n]; simpl.
  - destruct (create_room g n1 n2 s) as [[s' c]|]; by constructor.
  - unfold join_room. destruct (room_at s c) as [[l room]|]; simpl;
      repeat constructor.
  - unfold send_message. destruct (room_at s c) as [[l room]|]; simpl;
      [|repeat constructor].
    destruct (validateMessage m); [|repeat constructor].
    destruct (hasReachedMessageLimit c s); repeat constructor.
  - unfold generate_summary, generateSummary_call.
    destruct (room_at s c) as [[l room]|]; simpl; [|repeat constructor].
    destruct (messages room) as [|m ms]; repeat constructor.
  - destruct (pending s !! k) as [p|]; [|by constructor].
    unfold generate_summary_resume.
    destruct (generateSummary_return o); repeat constructor.
  - destruct (timers s !! k) as [c|]; repeat constructor.
  - eapply Forall_impl; [apply disconnecting_effects|].
    by intros e [c ->].
  - unfold cleanup_interval, expireInactiveRooms. simpl.
    destruct (0 <? _); repeat constructor.
Qed.

(** X7.  Errors are never broadcast: in any run of the event loop, from
    any state, no effect is an [error] event emitted to a room; every error
    goes to one socket. *)
Theorem errors_never_broadcast inputs s :
  Forall (fun e => ∀ roomCode message, e ≠ RoomEmit roomCode (error message))
         (snd (run inputs s)).
Proof.
  eapply Forall_impl; [apply (run_effects _ step_effects_sound)|].
  intros e He roomCode message ->. exact He.
Qed.

(** X8.  The model is never called on an empty conversation: in any run
    of the event loop, from any state, every call to the model carries at
    least one message. *)
Theorem model_never_called_on_empty_transcript inputs s transcript :
  GenerateContent transcript ∈ snd (run inputs s) → transcript ≠ [].
Proof.
  intros Hin ->.
  pose proof (run_effects _ step_effects_sound inputs s) as Hall.
  rewrite Forall_forall in Hall. by apply Hall in Hin.
Qed.

Lemma rooms_disconnecting socket socket_rooms :
  ∀ s, rooms (fst (disconnecting socket socket_rooms s)) = rooms s.
Proof.
  induction socket_rooms as [|[c now] more IH]; intros s; simpl; [done|].
  assert (rooms (fst (leave_room socket c now s)) = rooms s) as H1.
  { unfold leave_room. by destruct (room_at s c) as [[l room]|]. }
  destruct (leave_room socket c now s) as [s1 out1]. simpl in H1.
  specialize (IH s1). destruct (disconnecting socket more s1) as [s2 out2].
  simpl in *. congruence.
Qed.

Lemma rooms_cleanup_all_subseteq (codes : list string) s :
  rooms (foldl (fun s' c => cleanupRoom c s') s codes) ⊆ rooms s.
Proof.
  apply map_subseteq_spec. intros c l. rewrite cleanup_all_lookup.
  by destruct (decide (c ∈ codes)).
Qed.

(** X9.  Rooms leave the table through the clean-up timer and the reaper
    only, and enter it through room creation only: joining, sending,
    asking for a summary, the model's answer (failed or not) and a
    disconnection leave the table of room codes as it is, and the timer
    and the reaper can only remove codes. *)
Theorem only_cleanup_removes_rooms i s :
  match i with
  | CreateRoom _ _ _ => rooms s ⊆ rooms (fst (step i s))
  | TimeoutFires _ | CleanupInterval _ => rooms (fst (step i s)) ⊆ rooms s
  | _ => rooms (fst (step i s)) = rooms s
  end.
Proof.
  destruct i as [g n1 n2|sk c u n|sk c u m n1 n2|sk c|k o|k|sk sr|n]; simpl.
  - unfold create_room. destruct (first_free_code g s) as [c|] eqn:Hfree; simpl; [|done].
    apply insert_subseteq.
    clear -Hfree. induction g as [|c' g IH]; [done|]. simpl in Hfree.
    destruct (rooms s !! c') eqn:Hc'; [by apply IH|]. congruence.
  - unfold join_room. by destruct (room_at s c) as [[l room]|].
  - unfold send_message. destruct (room_at s c) as [[l room]|]; [|done].
    destruct (validateMessage m); [|done].
    by destruct (hasReachedMessageLimit c s).
  - by destruct (generate_summary_same_table s sk c).
  - destruct (pending s !! k) as [p|]; [|done].
    by destruct (generate_summary_resume_same_table p o
                   (mkServer (heap s) (rooms s) (delete k (pending s)) (timers s))).
  - destruct (timers s !! k) as [c|]; [|done].
    unfold cleanup_timeout. simpl. rewrite rooms_cleanupRoom. simpl.
    apply delete_subseteq.
  - apply rooms_disconnecting.
  - unfold cleanup_interval, expireInactiveRooms. simpl.
    apply rooms_cleanup_all_subseteq.
Qed.

End Never.

(* ====================================================================== *)
(** ** Creating and removing rooms *)
(* ====================================================================== *)

Section Lifecycle.

Local Open Scope string_scope.
Local Open Scope list_scope.
Local Open Scope Z_scope.

Implicit Types (s : Server) (roomCode socket username : string)
         (l : nat) (room : Room) (generated : list string).

Lemma room_exists_false s roomCode :
  room_exists roomCode s = false ↔ rooms s !! roomCode = None.
Proof. unfold room_exists. by destruct (rooms s !! roomCode). Qed.

Lemma room_exists_false_room_at s roomCode :
  room_exists roomCode s = false → room_at s roomCode = None.
Proof. intros H%room_exists_false. unfold room_at. by rewrite H. Qed.

(** The loop over the generated codes stops at the first one that is
    free. *)
Lemma first_free_code_Some generated s roomCode :
  first_free_code generated s = Some roomCode ↔
  ∃ taken rest, generated = taken ++ roomCode :: rest
                ∧ Forall (fun c => room_exists c s = true) taken
                ∧ room_exists roomCode s = false.
Proof.
  induction generated as [|c g IH]; simpl.
  - split; [done|]. intros (taken & rest & Heq & _). by destruct taken.
  - destruct (rooms s !! c) as [l|] eqn:Hc.
    + assert (room_exists c s = true) as Hex by (unfold room_exists; by rewrite Hc).
      rewrite IH. split.
      * intros (taken & rest & -> & Htaken & Hfree).
        exists (c :: taken), rest. split; [done|]. split; [|done]. by constructor.
      * intros ([|c' taken] & rest & Heq & Htaken & Hfree); simplify_eq/=;
          [congruence|].
        exists taken, rest. split; [done|]. split; [|done]. by inversion Htaken.
    + assert (room_exists c s = false) as Hnex by (unfold room_exists; by rewrite Hc).
      split.
      * intros [= <-]. exists [], g. split; [done|]. split; [by constructor|done].
      * intros ([|c' taken] & rest & Heq & Htaken & Hfree); simplify_eq/=; [done|].
        inversion Htaken. congruence.
Qed.

Lemma first_free_code_None generated s :
  first_free_code generated s = None ↔
  Forall (fun c => room_exists c s = true) generated.
Proof.
  induction generated as [|c g IH]; simpl; [split; [by constructor|done]|].
  destruct (rooms s !! c) as [l|] eqn:Hc.
  - assert (room_exists c s = true) as Hex by (unfold room_exists; by rewrite Hc).
    rewrite IH. split; [intros; by constructor | by inversion 1].
  - assert (room_exists c s = false) as Hnex by (unfold room_exists; by rewrite Hc).
    split; [done|]. inversion 1. congruence.
Qed.

(** X10.  Room creation returns the first generated code that is not in
    the table.  That code then names a new room without users or
    messages, carrying the two clock readings; every other room of the
    table is untouched.  Creation does not return as long as every
    generated code is taken. *)
Theorem create_room_fresh generated now1 now2 s :
  well_formed s →
  (create_room generated now1 now2 s = None ↔
   Forall (fun c => room_exists c s = true) generated)
  ∧ (∀ s' roomCode,
        create_room generated now1 now2 s = Some (s', roomCode) →
        (∃ taken rest, generated = taken ++ roomCode :: rest
                       ∧ Forall (fun c => room_exists c s = true) taken)
        ∧ room_exists roomCode s = false
        ∧ room_exists roomCode s' = true
        ∧ (∃ l, room_at s' roomCode = Some (l, mkRoom [] [] now1 now2))
        ∧ (∀ c, c ≠ roomCode → room_at s' c = room_at s c)).
Proof.
  intros Hwf. unfold create_room. split.
  - rewrite <- first_free_code_None. by destruct (first_free_code generated s).
  - intros s' roomCode.
    destruct (first_free_code generated s) as [c|] eqn:Hfree; [|done].
    intros [= <- <-].
    apply first_free_code_Some in Hfree as (taken & rest & Heq & Htaken & Hnew).
    split; [eauto|]. split; [done|].
    split; [unfold room_exists; simpl; by rewrite lookup_insert_eq|].
    split.
    + eexists. apply room_at_Some. simpl. by rewrite !lookup_insert_eq.
    + intros c' Hne. unfold room_at. simpl. rewrite lookup_insert_ne by done.
      destruct (rooms s !! c') as [l'|] eqn:Hc'; [|done].
      destruct (Hwf _ _ Hc') as [room' Hroom'].
      rewrite lookup_insert_ne; [done|].
      intros <-. assert (fresh (dom (heap s)) ∈ dom (heap s)) as Hin
        by (apply elem_of_dom; eauto).
      by apply is_fresh in Hin.
Qed.

(** X11.  Removing a room is idempotent: after [cleanupRoom] the code is
    not in the table, a second [cleanupRoom] changes nothing, removing an
    absent room changes nothing, and the other rooms are untouched.  The
    clean-up timer broadcasts [room_closed] whether or not the room was
    still there. *)
Theorem cleanupRoom_idempotent roomCode s :
  room_exists roomCode (cleanupRoom roomCode s) = false
  ∧ cleanupRoom roomCode (cleanupRoom roomCode s) = cleanupRoom roomCode s
  ∧ (room_exists roomCode s = false → cleanupRoom roomCode s = s)
  ∧ (∀ c, c ≠ roomCode → room_at (cleanupRoom roomCode s) c = room_at s c)
  ∧ cleanup_timeout roomCode s =
      (cleanupRoom roomCode s, [RoomEmit roomCode (room_closed roomCode)]).
Proof.
  assert (rooms (cleanupRoom roomCode s) !! roomCode = None) as Hgone
    by (rewrite rooms_cleanupRoom; apply lookup_delete_eq).
  split; [by apply room_exists_false|].
  split; [unfold cleanupRoom at 1; by rewrite Hgone|].
  split; [intros H%room_exists_false; unfold cleanupRoom; by rewrite H|].
  split; [|done].
  intros c Hne. unfold room_at.
  rewrite rooms_cleanupRoom, heap_cleanupRoom. by rewrite lookup_delete_ne.
Qed.


(** X13.  A disconnection of a socket none of whose rooms is in the table
    (its own room, rooms already reaped or closed) changes nothing and
    emits nothing. *)
Theorem disconnecting_absent_rooms socket (socket_rooms : list (string * Z)) s :
  Forall (fun x => room_exists x.1 s = false) socket_rooms →
  disconnecting socket socket_rooms s = (s, []).
Proof.
  induction 1 as [|[c now] more Hc _ IH]; [done|].
  simpl in *. unfold leave_room.
  rewrite (room_exists_false_room_at _ _ Hc). by rewrite IH.
Qed.

End Lifecycle.

(* ====================================================================== *)
(** ** The summary, from the answer of the model to the end of the room *)
(* ====================================================================== *)

Section SummaryFlow.

Local Open Scope string_scope.
Local Open Scope list_scope.
Local Open Scope Z_scope.

Implicit Types (s : Server) (roomCode socket username : string)
         (l : nat) (room : Room) (p : Pending) (o : model_outcome).

(** The handler's way out of a successful call. *)
Lemma generate_summary_resume_success p o s result :
  generateSummary_return o = inl result →
  generate_summary_resume p o s =
    (mkServer (heap s) (rooms s) (pending s) (timers s ++ [p_roomCode p]),
     [RoomEmit (p_roomCode p)
        (summary_generated (p_roomCode p) result (held_message_count (p_room p) s));
      SetTimeout (p_roomCode p) 2000]).
Proof. intros Hok. unfold generate_summary_resume. by rewrite Hok. Qed.


(** X15.  The message count of a summary is read when the model has
    answered, not when the summary was requested: a message accepted while
    the request is in flight is counted in [messageCount], although the
    transcript sent to the model does not contain it. *)
Theorem summary_counts_messages_sent_meanwhile
        s socket1 socket2 roomCode username t now1 now2 o result l room :
  room_at s roomCode = Some (l, room) →
  messages room ≠ [] →
  validateMessage (PString t) = Valid →
  Z.of_nat (length (messages room)) < MAX_MESSAGES_PER_ROOM →
  generateSummary_return o = inl result →
  snd (run [GenerateSummary socket1 roomCode;
            SendMessage socket2 roomCode username (PString t) now1 now2;
            ModelAnswers (length (pending s)) o] s) =
    [SocketEmit socket1 (summary_generating roomCode);
     GenerateContent (messages room);
     RoomEmit roomCode (receive_message username (trim t));
     RoomEmit roomCode
       (summary_generated roomCode result (Z.of_nat (length (messages room)) + 1));
     SetTimeout roomCode 2000].
Proof.
  intros Hroom Hne Hvalid Hlen Hok.
  rewrite !run_cons. cbn [run snd fst]. rewrite app_nil_r.
  cbn [step].
  rewrite (generate_summary_accepted s socket1 roomCode l room Hroom Hne).
  cbn [fst snd].
  set (s1 := mkServer (heap s) (rooms s)
                      (pending s ++ [mkPending socket1 roomCode l]) (timers s)).
  assert (room_at s1 roomCode = Some (l, room)) as Hroom1
    by (by rewrite (room_at_same_table s s1)).
  assert (hasReachedMessageLimit roomCode s1 = false) as Hlimit
    by (by eapply hasReachedMessageLimit_false).
  rewrite (send_message_accepted s1 socket2 roomCode username t now1 now2 l room
             Hroom1 Hvalid Hlimit).
  cbn [fst snd set_room pending s1].
  rewrite list_lookup_middle by done.
  rewrite (generate_summary_resume_success _ _ _ _ Hok).
  cbn [fst snd p_roomCode p_room]. unfold held_message_count.
  cbn [heap set_room]. rewrite lookup_insert_eq. cbn [messages].
  by rewrite length_app, Nat2Z.inj_add.
Qed.

Lemma cleanup_all_pending (codes : list string) s :
  pending (foldl (fun s' c => cleanupRoom c s') s codes) = pending s
  ∧ timers (foldl (fun s' c => cleanupRoom c s') s codes) = timers s.
Proof.
  revert s. induction codes as [|c codes IH]; intros s; simpl; [done|].
  destruct (IH (cleanupRoom c s)) as [-> ->].
  unfold cleanupRoom. by destruct (rooms s !! c).
Qed.

(** X16.  The reaper does not wait for a summary: a room idle beyond the
    timeout is removed by a pass of the reaper although a summary request
    on it is in flight; when the model then answers, the summary is still
    broadcast, with the message count of the removed room, and the timer
    that follows finds nothing to remove. *)
Theorem reaped_room_still_summarized s socket roomCode now o result l room :
  room_at s roomCode = Some (l, room) →
  messages room ≠ [] →
  ROOM_INACTIVITY_TIMEOUT < now - lastActivity room →
  generateSummary_return o = inl result →
  room_exists roomCode
    (fst (run [GenerateSummary socket roomCode; CleanupInterval now] s)) = false
  ∧ snd (step (ModelAnswers (length (pending s)) o)
              (fst (run [GenerateSummary socket roomCode; CleanupInterval now] s))) =
      [RoomEmit roomCode
         (summary_generated roomCode result (Z.of_nat (length (messages room))));
       SetTimeout roomCode 2000]
  ∧ rooms (fst (run [GenerateSummary socket roomCode; CleanupInterval now;
                     ModelAnswers (length (pending s)) o;
                     TimeoutFires (length (timers s))] s)) =
      rooms (fst (run [GenerateSummary socket roomCode; CleanupInterval now] s)).
Proof.
  intros Hroom Hne Hidle Hok.
  rewrite !run_cons. cbn [run snd fst step].
  rewrite (generate_summary_accepted s socket roomCode l room Hroom Hne).
  cbn [fst snd].
  set (s1 := mkServer (heap s) (rooms s)
                      (pending s ++ [mkPending socket roomCode l]) (timers s)).
  assert (room_at s1 roomCode = Some (l, room)) as Hroom1
    by (by rewrite (room_at_same_table s s1)).
  unfold cleanup_interval, expireInactiveRooms. cbn [fst snd].
  set (s2 := foldl (fun s' c => cleanupRoom c s') s1 (expiredRooms now s1)).
  assert (rooms s2 !! roomCode = None) as Hgone.
  { unfold s2. rewrite cleanup_all_lookup, decide_True; [done|].
    apply elem_of_expiredRooms. eauto. }
  assert (heap s2 = heap s) as Hheap by (unfold s2; by rewrite cleanup_all_heap).
  destruct (cleanup_all_pending (expiredRooms now s1) s1) as [Hpend Htim].
  fold s2 in Hpend, Htim. simpl in Hpend, Htim.
  split; [by apply room_exists_false|].
  rewrite Hpend, list_lookup_middle by done.
  rewrite (generate_summary_resume_success _ _ _ _ Hok).
  cbn [fst snd p_roomCode p_room]. unfold held_message_count. cbn [heap timers].
  apply room_at_Some in Hroom as [_ Hh]. rewrite Hheap, Hh.
  split; [done|].
  rewrite Htim, list_lookup_middle by done.
  unfold cleanup_timeout, cleanupRoom. cbn [fst rooms]. by rewrite Hgone.
Qed.

End SummaryFlow.

(* ====================================================================== *)
(** ** Runs of handlers *)
(* ====================================================================== *)

Section Composition.

Local Open Scope string_scope.
Local Open Scope list_scope.
Local Open Scope Z_scope.

Implicit Types (s : Server) (roomCode socket username : string)
         (l : nat) (room : Room) (batch : list Sent).

(** X17.  A pass of the reaper is idempotent: a second pass at the same
    clock reading removes nothing, returns 0 and logs nothing. *)
Theorem reaper_idempotent now s :
  expireInactiveRooms now (fst (expireInactiveRooms now s)) =
    (fst (expireInactiveRooms now s), 0)
  ∧ cleanup_interval now (fst (cleanup_interval now s)) =
      (fst (cleanup_interval now s), []).
Proof.
  assert (expiredRooms now (fst (expireInactiveRooms now s)) = []) as Hnone.
  { apply elem_of_nil_inv. intros c Hin.
    apply elem_of_expiredRooms in Hin as (l & room & Hroom & Hidle).
    apply room_at_Some in Hroom as [Hc Hh]. unfold expireInactiveRooms in Hc, Hh.
    simpl in Hc, Hh. rewrite cleanup_all_lookup in Hc. rewrite cleanup_all_heap in Hh.
    destruct (decide (c ∈ expiredRooms now s)) as [|Hnot]; [done|].
    apply Hnot, elem_of_expiredRooms. exists l, room.
    split; [by apply room_at_Some | done]. }
  assert (expireInactiveRooms now (fst (expireInactiveRooms now s)) =
          (fst (expireInactiveRooms now s), 0)) as Hpass.
  { unfold expireInactiveRooms at 1. by rewrite Hnone. }
  split; [done|].
  unfold cleanup_interval.
  destruct (expireInactiveRooms now s) as [s' n] eqn:Hfirst.
  cbn [fst] in *. by rewrite Hpass.
Qed.

Lemma filter_other_sockets socket (us : list User) username :
  Forall (fun u => user_id u ≠ socket) us →
  filter (fun u => user_id u ≠ socket) (us ++ [mkUser socket username]) = us.
Proof.
  intros Hall. rewrite filter_app.
  rewrite filter_cons_False by (simpl; auto). rewrite filter_nil, app_nil_r.
  induction Hall as [|u us Hu _ IH]; [done|].
  rewrite filter_cons_True by done. by rewrite IH.
Qed.

(** X18.  Joining and then leaving restores the participants: for a
    socket that has no entry in the room, a join followed by the socket's
    disconnection leaves the room's users and messages as they were;
    [lastActivity] is the clock reading of the disconnection; the room
    hears of the arrival and of the departure. *)
Theorem join_then_leave_restores_users s socket roomCode username now1 now2 l room :
  room_at s roomCode = Some (l, room) →
  Forall (fun u => user_id u ≠ socket) (users room) →
  room_at (fst (run [JoinRoom socket roomCode username now1;
                     Disconnecting socket [(roomCode, now2)]] s)) roomCode =
    Some (l, mkRoom (users room) (messages room) now2 (createdAt room))
  ∧ snd (run [JoinRoom socket roomCode username now1;
              Disconnecting socket [(roomCode, now2)]] s) =
      [SocketJoin socket roomCode; RoomEmit roomCode (user_joined username);
       RoomEmit roomCode (user_left socket)].
Proof.
  intros Hroom Hothers. rewrite !run_cons. cbn [run fst snd step].
  unfold join_room. rewrite Hroom. cbn [fst snd].
  set (room1 := mkRoom (users room ++ [mkUser socket username]) (messages room)
                       now1 (createdAt room)).
  assert (room_at (set_room l room1 s) roomCode = Some (l, room1)) as Hroom1
    by (by eapply room_at_set_room).
  cbn [disconnecting]. unfold leave_room. rewrite Hroom1. cbn [fst snd].
  split; [|done].
  erewrite room_at_set_room by done. cbn [users messages createdAt room1].
  by rewrite filter_other_sockets.
Qed.

Lemma send_all_cons roomCode x batch :
  send_all roomCode (x :: batch) =
    SendMessage (sent_socket x) roomCode (sent_username x) (PString (sent_text x))
                (sent_now1 x) (sent_now2 x)
    :: send_all roomCode batch.
Proof. reflexivity. Qed.

(** A batch of valid messages that fits under the limit. *)
Lemma run_send_all roomCode batch :
  ∀ s l room,
    room_at s roomCode = Some (l, room) →
    Forall (fun x => validateMessage (PString (sent_text x)) = Valid) batch →
    Z.of_nat (length (messages room) + length batch) ≤ MAX_MESSAGES_PER_ROOM →
    ∃ room',
      room_at (fst (run (send_all roomCode batch) s)) roomCode = Some (l, room')
      ∧ messages room' = messages room ++ (stored_message <$> batch)
      ∧ users room' = users room
      ∧ snd (run (send_all roomCode batch) s) = broadcast_of roomCode <$> batch.
Proof.
  induction batch as [|x batch IH]; intros s l room Hroom Hvalid Hfit.
  - exists room. simpl. by rewrite app_nil_r.
  - apply Forall_cons in Hvalid as [Hx Hvalid].
    rewrite send_all_cons, run_cons. cbn [step fst snd].
    assert (hasReachedMessageLimit roomCode s = false) as Hlimit.
    { eapply hasReachedMessageLimit_false; [done|]. cbn [length] in Hfit. lia. }
    rewrite (send_message_accepted s _ roomCode _ _ _ _ l room Hroom Hx Hlimit).
    cbn [fst snd].
    set (room1 := mkRoom (users room) (messages room ++ [stored_message x])
                         (sent_now2 x) (createdAt room)).
    assert (room_at (set_room l room1 s) roomCode = Some (l, room1)) as Hroom1
      by (by eapply room_at_set_room).
    destruct (IH (set_room l room1 s) l room1 Hroom1 Hvalid) as (room' & Hr & Hm & Hu & Hout).
    { cbn [messages room1]. rewrite length_app. cbn [length] in *. lia. }
    exists room'. split; [exact Hr|]. split.
    + rewrite Hm. cbn [messages room1]. by rewrite <- app_assoc.
    + split; [by rewrite Hu|].
      change (broadcast_of roomCode <$> x :: batch)
        with (broadcast_of roomCode x :: (broadcast_of roomCode <$> batch)).
      cbn [app]. f_equal. exact Hout.
Qed.

(** X19.  Messages are stored and broadcast in the order they are sent: a
    batch of valid messages that fits under the limit is appended to the
    room's messages, trimmed, in order, and broadcast in the same order;
    the users of the room are unchanged. *)
Theorem send_all_in_order roomCode batch s l room :
  room_at s roomCode = Some (l, room) →
  Forall (fun x => validateMessage (PString (sent_text x)) = Valid) batch →
  Z.of_nat (length (messages room) + length batch) ≤ MAX_MESSAGES_PER_ROOM →
  ∃ room',
    room_at (fst (run (send_all roomCode batch) s)) roomCode = Some (l, room')
    ∧ messages room' = messages room ++ (stored_message <$> batch)
    ∧ users room' = users room
    ∧ snd (run (send_all roomCode batch) s) = broadcast_of roomCode <$> batch.
Proof.
  intros Hroom Hvalid Hfit.
  destruct (run_send_all roomCode batch s l room Hroom Hvalid Hfit)
    as (room' & Hafter & Hmessages & Husers & Hout).
  exists room'. split; [exact Hafter|]. split; [exact Hmessages|].
  split; [exact Husers | exact Hout].
Qed.

(** X22.  The limit is reached by sending: once a batch of valid messages
    has brought a room to exactly 1000 messages, the next valid message is
    refused with the limit error sent to its sender only, and the state is
    unchanged. *)
Theorem limit_reached_after_max_sends
        roomCode batch s l room socket username t now1 now2 :
  room_at s roomCode = Some (l, room) →
  Forall (fun x => validateMessage (PString (sent_text x)) = Valid) batch →
  Z.of_nat (length (messages room) + length batch) = MAX_MESSAGES_PER_ROOM →
  validateMessage (PString t) = Valid →
  send_message socket roomCode username (PString t) now1 now2
               (fst (run (send_all roomCode batch) s)) =
    (fst (run (send_all roomCode batch) s),
     [SocketEmit socket (error "Room has reached maximum message limit of 1000")]).
Proof.
  intros Hroom Hvalid Hfull Ht.
  destruct (run_send_all roomCode batch s l room Hroom Hvalid) as (room' & Hr & Hm & _);
    [lia|].
  unfold send_message, hasReachedMessageLimit. rewrite Hr, Ht.
  rewrite Hm, length_app, length_fmap.
  destruct (Z.leb_spec MAX_MESSAGES_PER_ROOM
              (Z.of_nat (length (messages room) + length batch))); [done|lia].
Qed.

(** X23.  Activity protects a room from the reaper: after a join, or
    after an accepted message, at clock reading [now], a pass of the reaper
    at a reading no more than the inactivity timeout later keeps the
    room. *)
Theorem active_room_survives_reaper
        s socket roomCode username t now0 now now' l room :
  room_at s roomCode = Some (l, room) →
  now' - now ≤ ROOM_INACTIVITY_TIMEOUT →
  room_exists roomCode
    (fst (run [JoinRoom socket roomCode username now; CleanupInterval now'] s)) = true
  ∧ (validateMessage (PString t) = Valid →
     Z.of_nat (length (messages room)) < MAX_MESSAGES_PER_ROOM →
     room_exists roomCode
       (fst (run [SendMessage socket roomCode username (PString t) now0 now;
                  CleanupInterval now'] s)) = true).
Proof.
  intros Hroom Hrecent.
  assert (∀ s1 room1,
            room_at s1 roomCode = Some (l, room1) → lastActivity room1 = now →
            room_exists roomCode (fst (cleanup_interval now' s1)) = true) as Hkept.
  { intros s1 room1 Hroom1 Hact.
    unfold cleanup_interval, expireInactiveRooms. cbn [fst].
    apply room_exists_true. rewrite cleanup_all_lookup.
    rewrite decide_False.
    - apply room_at_Some in Hroom1 as [-> _]. by eexists.
    - intros (l' & room' & Hroom' & Hidle)%elem_of_expiredRooms.
      rewrite Hroom1 in Hroom'. injection Hroom' as <- <-. lia. }
  split.
  - rewrite !run_cons. cbn [run fst step].
    unfold join_room. rewrite Hroom. cbn [fst].
    eapply Hkept; [by eapply room_at_set_room | done].
  - intros Hvalid Hlen. rewrite !run_cons. cbn [run fst step].
    assert (hasReachedMessageLimit roomCode s = false) as Hlimit
      by (by eapply hasReachedMessageLimit_false).
    rewrite (send_message_accepted s socket roomCode username t now0 now l room
               Hroom Hvalid Hlimit).
    cbn [fst]. eapply Hkept; [by eapply room_at_set_room | done].
Qed.

(** X20.  A summary that the gateway returns always has an overview: its
    [summary] is a truthy value, the one of the reply or the text
    "No summary available", and it comes from a reply that parsed to a
    value other than [null]. *)
Theorem summary_overview_never_missing o result :
  generateSummary_return o = inl result →
  truthy (summary result) = true
  ∧ ∃ text summaryData,
      o = ModelReplied text
      ∧ JSON_parse (clean_reply text) = Some summaryData
      ∧ summaryData ≠ JNull.
Proof.
  unfold generateSummary_return. destruct o as [|text]; [done|].
  destruct (JSON_parse (clean_reply text)) as [summaryData|] eqn:Hparse; [|done].
  destruct (structure_response summaryData) as [r|] eqn:Hstruct; [|done].
  intros [= <-]. split.
  - unfold structure_response in Hstruct.
    destruct (property summaryData "summary") as [sm|]; [|done].
    destruct (property summaryData "keyPoints") as [kp|]; [|done].
    destruct (property summaryData "actionItems") as [ai|]; [|done].
    injection Hstruct as <-. simpl.
    destruct sm as [v|]; [|done]. by destruct (truthy v) eqn:Hv.
  - exists text, summaryData. split; [done|]. split; [done|].
    intros ->. done.
Qed.

End Composition.

(* ====================================================================== *)
(** ** The properties above on the sample runs *)
(* ====================================================================== *)

Section OnSamples.

Local Open Scope string_scope.
Local Open Scope list_scope.
Local Open Scope Z_scope.

Lemma well_formed_chatting : well_formed Scenario.chatting.
Proof. apply well_formed_run, well_formed_run, well_formed_empty. Qed.

Lemma clean_reply_fenced_witness :
  clean_reply (lit " " ++ fenced "json" [10%N] (lit "{}") [10%N] ++ [10%N]) = lit "{}"
  ∧ (strip_prefix (lit "```") (lit "{}") = None →
     generateSummary_return
       (ModelReplied (lit " " ++ fenced "json" [10%N] (lit "{}") [10%N] ++ [10%N])) =
     generateSummary_return (ModelReplied (lit "{}"))).
Proof.
  apply (clean_reply_fenced "json" (lit " ") [10%N] (lit "{}") [10%N] [10%N]).
  - repeat constructor.
  - repeat constructor.
  - repeat constructor.
  - repeat constructor.
  - reflexivity.
  - reflexivity.
  - left. reflexivity.
Defined.

Lemma message_limit_never_exceeded_witness :
  Z.of_nat (length (messages Samples.chatting_room)) ≤ MAX_MESSAGES_PER_ROOM.
Proof.
  apply (message_limit_never_exceeded Samples.chat_inputs "K3X9QZ" 0%nat
           Samples.chatting_room).
  vm_compute. reflexivity.
Defined.

Lemma stored_messages_trimmed_witness :
  msg_message (mkMessage "Bob" (lit "hello") 5000) ≠ []
  ∧ trim (msg_message (mkMessage "Bob" (lit "hello") 5000)) =
      msg_message (mkMessage "Bob" (lit "hello") 5000)
  ∧ jlength (msg_message (mkMessage "Bob" (lit "hello") 5000))
      ≤ MAX_CHARACTERS_PER_MESSAGE.
Proof.
  apply (stored_messages_trimmed Samples.chat_inputs "K3X9QZ" 0%nat
           Samples.chatting_room (mkMessage "Bob" (lit "hello") 5000)).
  - vm_compute. reflexivity.
  - apply elem_of_cons. right. apply elem_of_cons. left. reflexivity.
Defined.

Lemma messages_append_only_witness :
  ∃ room',
    heap (fst (run (send_all "K3X9QZ" Samples.two_sent) Scenario.chatting)) !! 0%nat =
      Some room'
    ∧ messages Samples.chatting_room `prefix_of` messages room'
    ∧ createdAt room' = createdAt Samples.chatting_room.
Proof.
  apply (messages_append_only (send_all "K3X9QZ" Samples.two_sent) Scenario.chatting
           0%nat Samples.chatting_room).
  vm_compute. reflexivity.
Defined.

Lemma model_never_called_on_empty_transcript_witness :
  messages Samples.chatting_room ≠ [].
Proof.
  apply (model_never_called_on_empty_transcript
           [GenerateSummary "sockA" "K3X9QZ"] Scenario.chatting
           (messages Samples.chatting_room)).
  apply elem_of_cons. right. apply elem_of_cons. left. vm_compute. reflexivity.
Defined.

Lemma create_room_fresh_witness :
  (create_room ["K3X9QZ"; "AB12CD"] 9000 9001 Scenario.chatting = None ↔
   Forall (fun c => room_exists c Scenario.chatting = true) ["K3X9QZ"; "AB12CD"])
  ∧ (∀ s' roomCode,
        create_room ["K3X9QZ"; "AB12CD"] 9000 9001 Scenario.chatting =
          Some (s', roomCode) →
        (∃ taken rest, ["K3X9QZ"; "AB12CD"] = taken ++ roomCode :: rest
                       ∧ Forall (fun c => room_exists c Scenario.chatting = true) taken)
        ∧ room_exists roomCode Scenario.chatting = false
        ∧ room_exists roomCode s' = true
        ∧ (∃ l, room_at s' roomCode = Some (l, mkRoom [] [] 9000 9001))
        ∧ (∀ c, c ≠ roomCode → room_at s' c = room_at Scenario.chatting c)).
Proof.
  apply (create_room_fresh ["K3X9QZ"; "AB12CD"] 9000 9001 Scenario.chatting).
  exact well_formed_chatting.
Defined.


Lemma disconnecting_absent_rooms_witness :
  disconnecting "sockC" [("sockC", 9000); ("NOROOM", 9001)] Scenario.chatting =
    (Scenario.chatting, []).
Proof.
  apply (disconnecting_absent_rooms "sockC" [("sockC", 9000); ("NOROOM", 9001)]
           Scenario.chatting).
  constructor; [vm_compute; reflexivity|].
  constructor; [vm_compute; reflexivity|]. constructor.
Defined.


Lemma summary_counts_messages_sent_meanwhile_witness :
  snd (run [GenerateSummary "sockA" "K3X9QZ";
            SendMessage "sockB" "K3X9QZ" "Bob" (PString (lit " wait ")) 6000 6001;
            ModelAnswers (length (pending Scenario.chatting))
                         (ModelReplied Scenario.fenced_reply)]
           Scenario.chatting) =
    [SocketEmit "sockA" (summary_generating "K3X9QZ");
     GenerateContent (messages Samples.chatting_room);
     RoomEmit "K3X9QZ" (receive_message "Bob" (trim (lit " wait ")));
     RoomEmit "K3X9QZ"
       (summary_generated "K3X9QZ" Samples.tea_summary
          (Z.of_nat (length (messages Samples.chatting_room)) + 1));
     SetTimeout "K3X9QZ" 2000].
Proof.
  apply (summary_counts_messages_sent_meanwhile Scenario.chatting "sockA" "sockB"
           "K3X9QZ" "Bob" (lit " wait ") 6000 6001
           (ModelReplied Scenario.fenced_reply) Samples.tea_summary
           0%nat Samples.chatting_room).
  - vm_compute. reflexivity.
  - discriminate.
  - vm_compute. reflexivity.
  - vm_compute. reflexivity.
  - vm_compute. reflexivity.
Defined.

Lemma reaped_room_still_summarized_witness :
  room_exists "K3X9QZ"
    (fst (run [GenerateSummary "sockA" "K3X9QZ"; CleanupInterval 1805002]
              Scenario.chatting)) = false
  ∧ snd (step (ModelAnswers (length (pending Scenario.chatting))
                            (ModelReplied Scenario.fenced_reply))
              (fst (run [GenerateSummary "sockA" "K3X9QZ"; CleanupInterval 1805002]
                        Scenario.chatting))) =
      [RoomEmit "K3X9QZ"
         (summary_generated "K3X9QZ" Samples.tea_summary
            (Z.of_nat (length (messages Samples.chatting_room))));
       SetTimeout "K3X9QZ" 2000]
  ∧ rooms (fst (run [GenerateSummary "sockA" "K3X9QZ"; CleanupInterval 1805002;
                     ModelAnswers (length (pending Scenario.chatting))
                                  (ModelReplied Scenario.fenced_reply);
                     TimeoutFires (length (timers Scenario.chatting))]
                    Scenario.chatting)) =
      rooms (fst (run [GenerateSummary "sockA" "K3X9QZ"; CleanupInterval 1805002]
                      Scenario.chatting)).
Proof.
  apply (reaped_room_still_summarized Scenario.chatting "sockA" "K3X9QZ" 1805002
           (ModelReplied Scenario.fenced_reply) Samples.tea_summary
           0%nat Samples.chatting_room).
  - vm_compute. reflexivity.
  - discriminate.
  - vm_compute. reflexivity.
  - vm_compute. reflexivity.
Defined.

Lemma join_then_leave_restores_users_witness :
  room_at (fst (run [JoinRoom "sockC" "K3X9QZ" "Carol" 6000;
                     Disconnecting "sockC" [("K3X9QZ", 7000)]] Scenario.chatting))
          "K3X9QZ" =
    Some (0%nat, mkRoom (users Samples.chatting_room) (messages Samples.chatting_room)
                        7000 (createdAt Samples.chatting_room))
  ∧ snd (run [JoinRoom "sockC" "K3X9QZ" "Carol" 6000;
              Disconnecting "sockC" [("K3X9QZ", 7000)]] Scenario.chatting) =
      [SocketJoin "sockC" "K3X9QZ"; RoomEmit "K3X9QZ" (user_joined "Carol");
       RoomEmit "K3X9QZ" (user_left "sockC")].
Proof.
  apply (join_then_leave_restores_users Scenario.chatting "sockC" "K3X9QZ" "Carol"
           6000 7000 0%nat Samples.chatting_room).
  - vm_compute. reflexivity.
  - constructor; [discriminate|]. constructor; [discriminate|]. constructor.
Defined.

Lemma send_all_in_order_witness :
  ∃ room',
    room_at (fst (run (send_all "K3X9QZ" Samples.two_sent) Scenario.chatting)) "K3X9QZ" =
      Some (0%nat, room')
    ∧ messages room' =
        messages Samples.chatting_room ++ (stored_message <$> Samples.two_sent)
    ∧ users room' = users Samples.chatting_room
    ∧ snd (run (send_all "K3X9QZ" Samples.two_sent) Scenario.chatting) =
        broadcast_of "K3X9QZ" <$> Samples.two_sent.
Proof.
  apply (send_all_in_order "K3X9QZ" Samples.two_sent Scenario.chatting 0%nat
           Samples.chatting_room).
  - vm_compute. reflexivity.
  - constructor; [vm_compute; reflexivity|].
    constructor; [vm_compute; reflexivity|]. constructor.
  - vm_compute. discriminate.
Defined.

Lemma summary_overview_never_missing_witness :
  truthy (summary Samples.tea_summary) = true
  ∧ ∃ text summaryData,
      ModelReplied Scenario.fenced_reply = ModelReplied text
      ∧ JSON_parse (clean_reply text) = Some summaryData
      ∧ summaryData ≠ JNull.
Proof.
  apply (summary_overview_never_missing (ModelReplied Scenario.fenced_reply)
           Samples.tea_summary).
  vm_compute. reflexivity.
Defined.

Lemma limit_reached_after_max_sends_witness :
  send_message "sockB" "K3X9QZ" "Bob" (PString (lit "one more")) 9000 9001
               (fst (run (send_all "K3X9QZ" Samples.thousand_sent) Scenario.lobby)) =
    (fst (run (send_all "K3X9QZ" Samples.thousand_sent) Scenario.lobby),
     [SocketEmit "sockB" (error "Room has reached maximum message limit of 1000")]).
Proof.
  apply (limit_reached_after_max_sends "K3X9QZ" Samples.thousand_sent Scenario.lobby
           0%nat (mkRoom [] [] 1000 1000) "sockB" "Bob" (lit "one more") 9000 9001).
  - vm_compute. reflexivity.
  - apply Forall_forall. intros x Hx. apply elem_of_replicate in Hx as [-> _].
    vm_compute. reflexivity.
  - vm_compute. reflexivity.
  - vm_compute. reflexivity.
Defined.

Lemma active_room_survives_reaper_witness :
  room_exists "K3X9QZ"
    (fst (run [JoinRoom "sockC" "K3X9QZ" "Carol" 1805002; CleanupInterval 3605002]
              Scenario.chatting)) = true
  ∧ (validateMessage (PString (lit "still here")) = Valid →
     Z.of_nat (length (messages Samples.chatting_room)) < MAX_MESSAGES_PER_ROOM →
     room_exists "K3X9QZ"
       (fst (run [SendMessage "sockC" "K3X9QZ" "Carol" (PString (lit "still here"))
                              1805001 1805002;
                  CleanupInterval 3605002] Scenario.chatting)) = true).
Proof.
  apply (active_room_survives_reaper Scenario.chatting "sockC" "K3X9QZ" "Carol"
           (lit "still here") 1805001 1805002 3605002 0%nat Samples.chatting_room).
  - vm_compute. reflexivity.
  - vm_compute. discriminate.
Defined.

End OnSamples.
